(** * Retro Music Player: playlist and playback control

    A shallow embedding of [retro_music_player.py] (class [RetroMusicPlayer]):
    the attributes of the window object, the widgets its slots write to, the
    pygame mixer it drives and the files it reads and writes, followed by the
    properties of the playlist operations.

    - Each slot is a function on the state [Player].  What the outside
      supplies to a slot is an argument of it: the paths a file dialog
      returns, the row of a double-clicked item, the slider value, the
      number [random.randint] draws.
    - A slot that can leave with an uncaught exception returns [exn + Player];
      exceptions caught inside a slot end in the message box and the log line
      of its [except] clause.
    - The disk maps paths to files; what the tag readers, [MP3], [json.load]
      and the mixer make of a path is read from it.
    - [setup_style], [update_progress], [seek_to_position], [update_equalizer],
      [adjust_equalizer] and [update_visualizer] assign no attribute of the
      player (they write to labels, the progress bar, the style sheet and the
      position of the music) and are not embedded. *)

From Stdlib Require Import ZArith QArith Lia Bool Ascii String List.
From stdpp Require Import base option list strings gmap pretty.

Local Open Scope string_scope.
Local Open Scope Z_scope.

(** ** Python primitives used by the player *)

Module Py.

(** [random.randint(a, b)]: an integer N with a <= N <= b.  The generator
    is outside the program; [rnd] is the raw number it produces for this
    call, and every value of the range is produced by some [rnd]. *)
Definition randint (a b rnd : Z) : Z := a + rnd mod (b - a + 1).

(** [l[i]] on a list: negative indices count from the end, anything
    outside [-len, len) raises IndexError ([None]). *)
Definition index {A} (l : list A) (i : Z) : option A :=
  let n := Z.of_nat (length l) in
  if (0 <=? i) && (i <? n) then l !! Z.to_nat i
  else if (- n <=? i) && (i <? 0) then l !! Z.to_nat (n + i)
  else None.

(** [int(x)] on a number: truncation towards zero. *)
Definition int (x : Q) : Z := Z.quot (Qnum x) (Z.pos (Qden x)).

(** [s.rfind(c)] for a one-character [c]: the highest index holding [c],
    or -1.  [rfind_from] scans left to right, [i] being the index of the
    head of [s] and [last] the highest match so far. *)
Fixpoint rfind_from (c : ascii) (s : string) (i last : Z) : Z :=
  match s with
  | EmptyString => last
  | String a s' => rfind_from c s' (i + 1) (if Ascii.eqb a c then i else last)
  end.

Definition rfind (c : ascii) (s : string) : Z := rfind_from c s 0 (-1).

(** Slices [s[i:]] and [s[:i]] for [0 <= i]. *)
Fixpoint drop (i : nat) (s : string) : string :=
  match i, s with
  | O, _ => s
  | S i', String _ s' => drop i' s'
  | S _, EmptyString => EmptyString
  end.

Fixpoint take (i : nat) (s : string) : string :=
  match i, s with
  | O, _ => EmptyString
  | S i', String a s' => String a (take i' s')
  | S _, EmptyString => EmptyString
  end.

(** [s[i:i+1]]: the character at [i] as a string, empty past the end. *)
Definition char_at (s : string) (i : Z) : string := take 1 (drop (Z.to_nat i) s).

(** [s.lower()], on the ASCII letters. *)
Definition lower_ascii (a : ascii) : ascii :=
  let n := nat_of_ascii a in
  if (65 <=? n)%nat && (n <=? 90)%nat then ascii_of_nat (n + 32) else a.

Fixpoint lower (s : string) : string :=
  match s with
  | EmptyString => EmptyString
  | String a s' => String (lower_ascii a) (lower s')
  end.

(** [s.endswith(suffix)]. *)
Definition endswith (s suffix : string) : bool :=
  let n := String.length s in
  let k := String.length suffix in
  (k <=? n)%nat && String.eqb (drop (n - k) s) suffix.

(** [os.path.splitext(p)] of posixpath (separator [/], no alternative
    separator, extension separator [.]).  The loop over [filenameIndex]
    skips the leading dots of the file name; [todo] counts the iterations
    left, [dotIndex - filenameIndex]. *)
Fixpoint splitext_loop (p : string) (dotIndex filenameIndex : Z) (todo : nat)
  : string * string :=
  match todo with
  | O => (p, EmptyString)
  | S todo' =>
      if negb (String.eqb (char_at p filenameIndex) ".")
      then (take (Z.to_nat dotIndex) p, drop (Z.to_nat dotIndex) p)
      else splitext_loop p dotIndex (filenameIndex + 1) todo'
  end.

Definition splitext (p : string) : string * string :=
  let sepIndex := rfind "/" p in
  let dotIndex := rfind "." p in
  if sepIndex <? dotIndex then
    let filenameIndex := sepIndex + 1 in
    splitext_loop p dotIndex filenameIndex (Z.to_nat (dotIndex - filenameIndex))
  else (p, EmptyString).

(** [os.path.basename(p)] of posixpath: what follows the last [/]. *)
Definition basename (p : string) : string :=
  let i := rfind "/" p + 1 in
  drop (Z.to_nat i) p.

End Py.

(** ** Files, tag readers and the mixer *)

(** The exceptions the slots meet.  [FileNotFoundError] carries the path;
    the others stand for the error of the library named. *)
Inductive exn :=
| FileNotFoundError (path : string)
| PermissionError (path : string)
| MutagenError
| PygameError
| JSONDecodeError
| IndexError.

(** What [MP3(file)] exposes: [info.length] in seconds and the data of the
    first [APIC:] frame of the tags, when there is one. *)
Record mpeg_info := {
  info_length : Q;
  apic_data : option string
}.

(** An audio file as the libraries see it: [tags] is what the tag reader
    that [get_track_metadata] picks by extension returns (the [title] entry
    when tagged), [mpeg] what [MP3(file)] returns, [mixer_error] the error
    of [mixer.music.load], if any. *)
Record audio := {
  tags : exn + option string;
  mpeg : exn + mpeg_info;
  mixer_error : option exn
}.

(** A file on disk.  [Json paths] is a text that [json.load] reads as the
    list [paths] and that [json.dump] writes for it; playlist files holding
    another JSON document are outside the model.  [Other] is any content no
    library reads. *)
Inductive file :=
| Audio (a : audio)
| Json (paths : list string)
| Other.

(** The disk: the media and playlist files, by path.  The one file left
    out is [player_errors.log], which [logging.basicConfig] opens for the
    error log: its lines are the [errors_log] of the player below, kept
    apart from [files]. *)
Record Disk := {
  files : gmap string file;
  read_only : gset string   (* paths [open(path, 'w')] refuses *)
}.

Definition read_tags (d : Disk) (path : string) : exn + option string :=
  match files d !! path with
  | Some (Audio a) => tags a
  | Some _ => inl MutagenError
  | None => inl (FileNotFoundError path)
  end.

Definition EasyID3 := read_tags.
Definition FLAC := read_tags.
Definition OggVorbis := read_tags.

Definition MP3 (d : Disk) (path : string) : exn + mpeg_info :=
  match files d !! path with
  | Some (Audio a) => mpeg a
  | Some _ => inl MutagenError
  | None => inl (FileNotFoundError path)
  end.

Definition json_load (d : Disk) (path : string) : exn + list string :=
  match files d !! path with
  | Some (Json paths) => inr paths
  | Some _ => inl JSONDecodeError
  | None => inl (FileNotFoundError path)
  end.

Definition json_dump (paths : list string) (path : string) (d : Disk) : exn + Disk :=
  if decide (path ∈ read_only d) then inl (PermissionError path)
  else inr {| files := <[path := Json paths]> (files d); read_only := read_only d |}.

(** [pygame.mixer.music].  [calls] lists the calls made, oldest first, with
    their arguments; [music_pos] is what [get_pos()] answers: -1 while the
    position clock of the mixer is not armed (no music started yet, or the
    music stopped or played to its end), a position from 0 on while it is.
    No time passes in the model, so an armed position stays where the last
    call left it; the player only tests whether it is -1. *)
Inductive mixer_call :=
| Fadeout (ms : Z)
| Load (track : string)
| Play
| Pause
| Unpause
| SetVolume (gain : Q).

Record Mixer := {
  music_pos : Z;
  calls : list mixer_call
}.

(** The position after a call.  [fadeout] returns at once, the music
    still running while it fades; [load] of a new music stops the one
    loaded; [play] starts the clock at 0; [unpause] arms the clock again,
    also when the music had ended; [pause] and [set_volume] leave it.  (On a
    mixer that has never played, [get_pos()] after [unpause] does not answer
    at all; nothing below relies on the position in that case.) *)
Definition mixer_call_pos (c : mixer_call) (pos : Z) : Z :=
  match c with
  | Fadeout _ => pos
  | Load _ => -1
  | Play => 0
  | Unpause => Z.max 0 pos
  | Pause | SetVolume _ => pos
  end.

Definition mixer_do (c : mixer_call) (m : Mixer) : Mixer :=
  {| music_pos := mixer_call_pos c (music_pos m); calls := calls m ++ [c] |}.

Definition mixer_load_error (d : Disk) (track : string) : option exn :=
  match files d !! track with
  | Some (Audio a) => mixer_error a
  | _ => Some PygameError
  end.

(** The music reaches its end (or the end of a fade-out): the mixer stops
    on its own and the clock is no longer armed. *)
Definition mixer_music_ends (m : Mixer) : Mixer :=
  {| music_pos := -1; calls := calls m |}.

(** ** The window: widgets, message boxes, error log *)

(** One constructor per [QMessageBox] call of the source, with the values
    its text is formatted from. *)
Inductive dialog :=
| UnsupportedFormat (name : string)        (* warning, "Unsupported Format" *)
| FileError (name : string) (e : exn)      (* warning, "File Error" *)
| PlaybackError (name : string) (e : exn)  (* critical, "Playback Error" *)
| SaveSuccess                              (* information, "Playlist saved successfully." *)
| NoPlaylist                               (* warning, "No tracks to save." *)
| LoadSuccess                              (* information, "Playlist loaded successfully." *)
| LoadError (e : exn).                     (* critical, "Load Error" *)

(** The lines of the file [player_errors.log]: one constructor per
    [logging.error] call of the source. *)
Inductive log_entry :=
| DropErrorLog (url : string) (e : exn)
| AddTrackErrorLog (file : string) (e : exn)
| MetadataErrorLog (file : string) (e : exn)
| AlbumArtErrorLog (file : string) (e : exn)
| PlaybackErrorLog (track : string) (e : exn)
| LoadPlaylistErrorLog (e : exn).

(** A [QTimer]: [Some ms] while started with that interval. *)
Definition timer := option Z.

Record Ui := {
  playlist_widget : list string;   (* item texts, in row order *)
  art_label : option string;       (* picture data shown, if any *)
  play_btn : string;
  shuffle_btn : string;
  repeat_btn : string;
  progress_timer : timer;
  equalizer_timer : timer;
  visualizer_timer : timer;
  dialogs : list dialog            (* message boxes shown, oldest first *)
}.

(** The player: the attributes [__init__] sets, then what the slots act on:
    widgets, mixer, the disk, and in [errors_log] the lines written so far
    to the log file [player_errors.log], oldest first. *)
Record Player := {
  playlist : list string;
  current_track_index : Z;
  is_playing : bool;
  is_shuffled : bool;
  is_repeated : bool;
  crossfade_duration : Q;
  ui : Ui;
  mixer : Mixer;
  disk : Disk;
  errors_log : list log_entry
}.

Definition SUPPORTED_FORMATS : list string :=
  [".mp3"; ".wav"; ".flac"; ".ogg"; ".aac"; ".wma"; ".m4a"; ".aiff"; ".opus"].

(** *** Attribute and widget updates *)

Definition with_ui (f : Ui → Ui) (s : Player) : Player :=
  {| playlist := playlist s; current_track_index := current_track_index s;
     is_playing := is_playing s; is_shuffled := is_shuffled s;
     is_repeated := is_repeated s; crossfade_duration := crossfade_duration s;
     ui := f (ui s); mixer := mixer s; disk := disk s; errors_log := errors_log s |}.

Definition with_mixer (f : Mixer → Mixer) (s : Player) : Player :=
  {| playlist := playlist s; current_track_index := current_track_index s;
     is_playing := is_playing s; is_shuffled := is_shuffled s;
     is_repeated := is_repeated s; crossfade_duration := crossfade_duration s;
     ui := ui s; mixer := f (mixer s); disk := disk s; errors_log := errors_log s |}.

Definition set_playlist (l : list string) (s : Player) : Player :=
  {| playlist := l; current_track_index := current_track_index s;
     is_playing := is_playing s; is_shuffled := is_shuffled s;
     is_repeated := is_repeated s; crossfade_duration := crossfade_duration s;
     ui := ui s; mixer := mixer s; disk := disk s; errors_log := errors_log s |}.

Definition set_current_track_index (i : Z) (s : Player) : Player :=
  {| playlist := playlist s; current_track_index := i;
     is_playing := is_playing s; is_shuffled := is_shuffled s;
     is_repeated := is_repeated s; crossfade_duration := crossfade_duration s;
     ui := ui s; mixer := mixer s; disk := disk s; errors_log := errors_log s |}.

Definition set_is_playing (b : bool) (s : Player) : Player :=
  {| playlist := playlist s; current_track_index := current_track_index s;
     is_playing := b; is_shuffled := is_shuffled s;
     is_repeated := is_repeated s; crossfade_duration := crossfade_duration s;
     ui := ui s; mixer := mixer s; disk := disk s; errors_log := errors_log s |}.

Definition set_is_shuffled (b : bool) (s : Player) : Player :=
  {| playlist := playlist s; current_track_index := current_track_index s;
     is_playing := is_playing s; is_shuffled := b;
     is_repeated := is_repeated s; crossfade_duration := crossfade_duration s;
     ui := ui s; mixer := mixer s; disk := disk s; errors_log := errors_log s |}.

Definition set_is_repeated (b : bool) (s : Player) : Player :=
  {| playlist := playlist s; current_track_index := current_track_index s;
     is_playing := is_playing s; is_shuffled := is_shuffled s;
     is_repeated := b; crossfade_duration := crossfade_duration s;
     ui := ui s; mixer := mixer s; disk := disk s; errors_log := errors_log s |}.

Definition set_disk (d : Disk) (s : Player) : Player :=
  {| playlist := playlist s; current_track_index := current_track_index s;
     is_playing := is_playing s; is_shuffled := is_shuffled s;
     is_repeated := is_repeated s; crossfade_duration := crossfade_duration s;
     ui := ui s; mixer := mixer s; disk := d; errors_log := errors_log s |}.

(** [logging.error]: one more line at the end of [player_errors.log]. *)
Definition logging_error (e : log_entry) (s : Player) : Player :=
  {| playlist := playlist s; current_track_index := current_track_index s;
     is_playing := is_playing s; is_shuffled := is_shuffled s;
     is_repeated := is_repeated s; crossfade_duration := crossfade_duration s;
     ui := ui s; mixer := mixer s; disk := disk s;
     errors_log := errors_log s ++ [e] |}.

Definition ui_set_items (items : list string) (u : Ui) : Ui :=
  {| playlist_widget := items; art_label := art_label u; play_btn := play_btn u;
     shuffle_btn := shuffle_btn u; repeat_btn := repeat_btn u;
     progress_timer := progress_timer u; equalizer_timer := equalizer_timer u;
     visualizer_timer := visualizer_timer u; dialogs := dialogs u |}.

Definition ui_set_art (art : option string) (u : Ui) : Ui :=
  {| playlist_widget := playlist_widget u; art_label := art; play_btn := play_btn u;
     shuffle_btn := shuffle_btn u; repeat_btn := repeat_btn u;
     progress_timer := progress_timer u; equalizer_timer := equalizer_timer u;
     visualizer_timer := visualizer_timer u; dialogs := dialogs u |}.

Definition ui_set_play_btn (text : string) (u : Ui) : Ui :=
  {| playlist_widget := playlist_widget u; art_label := art_label u; play_btn := text;
     shuffle_btn := shuffle_btn u; repeat_btn := repeat_btn u;
     progress_timer := progress_timer u; equalizer_timer := equalizer_timer u;
     visualizer_timer := visualizer_timer u; dialogs := dialogs u |}.

Definition ui_set_shuffle_btn (text : string) (u : Ui) : Ui :=
  {| playlist_widget := playlist_widget u; art_label := art_label u; play_btn := play_btn u;
     shuffle_btn := text; repeat_btn := repeat_btn u;
     progress_timer := progress_timer u; equalizer_timer := equalizer_timer u;
     visualizer_timer := visualizer_timer u; dialogs := dialogs u |}.

Definition ui_set_repeat_btn (text : string) (u : Ui) : Ui :=
  {| playlist_widget := playlist_widget u; art_label := art_label u; play_btn := play_btn u;
     shuffle_btn := shuffle_btn u; repeat_btn := text;
     progress_timer := progress_timer u; equalizer_timer := equalizer_timer u;
     visualizer_timer := visualizer_timer u; dialogs := dialogs u |}.

Definition ui_set_timers (p e v : timer) (u : Ui) : Ui :=
  {| playlist_widget := playlist_widget u; art_label := art_label u; play_btn := play_btn u;
     shuffle_btn := shuffle_btn u; repeat_btn := repeat_btn u;
     progress_timer := p; equalizer_timer := e;
     visualizer_timer := v; dialogs := dialogs u |}.

Definition ui_show (d : dialog) (u : Ui) : Ui :=
  {| playlist_widget := playlist_widget u; art_label := art_label u; play_btn := play_btn u;
     shuffle_btn := shuffle_btn u; repeat_btn := repeat_btn u;
     progress_timer := progress_timer u; equalizer_timer := equalizer_timer u;
     visualizer_timer := visualizer_timer u; dialogs := dialogs u ++ [d] |}.

Definition addItem (text : string) : Player → Player :=
  with_ui (fun u => ui_set_items (playlist_widget u ++ [text]) u).
Definition clear_items : Player → Player := with_ui (ui_set_items []).
Definition set_art (art : option string) : Player → Player := with_ui (ui_set_art art).
Definition message_box (d : dialog) : Player → Player := with_ui (ui_show d).
Definition start_timers : Player → Player :=
  with_ui (ui_set_timers (Some 1000) (Some 100) (Some 50)).
Definition stop_timers : Player → Player := with_ui (ui_set_timers None None None).
Definition mixer_music (c : mixer_call) : Player → Player := with_mixer (mixer_do c).

(** ** The slots *)

Definition file_ext (path : string) : string := Py.lower (snd (Py.splitext path)).

Definition supported (ext : string) : bool := bool_decide (ext ∈ SUPPORTED_FORMATS).

(** The text of a playlist row: [f"{track_name} ({int(total_length)}s)"]. *)
Definition item_text (track_name : string) (total_length : Q) : string :=
  track_name +:+ " (" +:+ pretty (Py.int total_length) +:+ "s)".

(** [get_track_metadata]: the title tag for the three tagged formats, the
    base name otherwise and whenever the reader raises (which is logged). *)
Definition title_or_basename (file : string) (r : exn + option string) (s : Player)
  : string * Player :=
  match r with
  | inr (Some title) => (title, s)
  | inr None => (Py.basename file, s)
  | inl e => (Py.basename file, logging_error (MetadataErrorLog file e) s)
  end.

Definition get_track_metadata (file : string) (s : Player) : string * Player :=
  let ext := file_ext file in
  if String.eqb ext ".mp3" then title_or_basename file (EasyID3 (disk s) file) s
  else if String.eqb ext ".flac" then title_or_basename file (FLAC (disk s) file) s
  else if String.eqb ext ".ogg" then title_or_basename file (OggVorbis (disk s) file) s
  else (Py.basename file, s).

Definition update_album_art (file : string) (s : Player) : Player :=
  if Py.endswith (Py.lower file) ".mp3" then
    match MP3 (disk s) file with
    | inr audio =>
        match apic_data audio with
        | Some data => set_art (Some data) s
        | None => set_art None s
        end
    | inl e => set_art None (logging_error (AlbumArtErrorLog file e) s)
    end
  else set_art None s.

(** [MP3(file).info.length if <is_mp3> else 0]. *)
Definition total_length_of (is_mp3 : bool) (file : string) (s : Player) : exn + Q :=
  if is_mp3 then
    match MP3 (disk s) file with
    | inr audio => inr (info_length audio)
    | inl e => inl e
    end
  else inr 0%Q.

(** The body of the loop of [add_tracks] and of [dropEvent] for one path;
    the two differ in the log line only. *)
Definition add_file (on_error : string → exn → log_entry) (file : string) (s : Player)
  : Player :=
  let ext := file_ext file in
  if supported ext then
    let s1 := set_playlist (playlist s ++ [file]) s in
    let (track_name, s2) := get_track_metadata file s1 in
    match total_length_of (String.eqb ext ".mp3") file s2 with
    | inr total_length =>
        update_album_art file (addItem (item_text track_name total_length) s2)
    | inl e =>
        message_box (FileError (Py.basename file) e) (logging_error (on_error file e) s2)
    end
  else message_box (UnsupportedFormat (Py.basename file)) s.

(** [add_tracks], [files] being the selection the file dialog returns. *)
Definition add_tracks (files : list string) (s : Player) : Player :=
  fold_left (fun s file => add_file AddTrackErrorLog file s) files s.

(** [dropEvent], [urls] being the local files of the dropped URLs. *)
Definition dropEvent (urls : list string) (s : Player) : Player :=
  fold_left (fun s url => add_file DropErrorLog url s) urls s.

(** [adjust_volume], the slot of the volume slider. *)
Definition adjust_volume (value : Z) (s : Player) : Player :=
  mixer_music (SetVolume (inject_Z value / 100)%Q) s.

(** The range [init_ui] gives the volume slider. *)
Definition volume_slider_range : Z * Z := (0, 100).

Definition toggle_play (s : Player) : Player :=
  if is_playing s then
    stop_timers
      (set_is_playing false
         (with_ui (ui_set_play_btn "▶ Play") (mixer_music Pause s)))
  else
    start_timers
      (set_is_playing true
         (with_ui (ui_set_play_btn "⏸ Pause") (mixer_music Unpause s))).

(** [play_track].  The subscript is outside the [try]: an index out of
    range leaves the slot with IndexError.  Inside it, [mixer.music.load]
    is the call that can raise. *)
Definition play_track (s : Player) : exn + Player :=
  match playlist s with
  | [] => inr s
  | _ :: _ =>
      match Py.index (playlist s) (current_track_index s) with
      | None => inl IndexError
      | Some track =>
          let s1 :=
            if is_playing s
            then mixer_music (Fadeout (Py.int (crossfade_duration s * 1000)%Q)) s
            else s in
          match mixer_load_error (disk s1) track with
          | Some e =>
              inr (message_box (PlaybackError (Py.basename track) e)
                     (logging_error (PlaybackErrorLog track e) s1))
          | None =>
              let s2 := mixer_music Play (mixer_music (Load track) s1) in
              let (_, s3) := get_track_metadata track s2 in
              let s4 := update_album_art track s3 in
              inr (start_timers
                     (set_is_playing true
                        (with_ui (ui_set_play_btn "⏸ Pause") s4)))
          end
      end
  end.

(** [play_selected_track], [row] being [playlist_widget.row(item)]. *)
Definition play_selected_track (row : Z) (s : Player) : exn + Player :=
  play_track (set_current_track_index row s).

Definition playlist_len (s : Player) : Z := Z.of_nat (length (playlist s)).

(** [next_track]; [rnd] feeds [random.randint]. *)
Definition next_track (rnd : Z) (s : Player) : exn + Player :=
  match playlist s with
  | [] => inr s
  | _ :: _ =>
      let s1 :=
        if is_shuffled s
        then set_current_track_index (Py.randint 0 (playlist_len s - 1) rnd) s
        else set_current_track_index
               ((current_track_index s + 1) mod playlist_len s) s in
      if negb (is_repeated s1) && (current_track_index s1 =? 0)
         && (music_pos (mixer s1) =? -1)
      then inr (toggle_play s1)
      else play_track s1
  end.

Definition prev_track (rnd : Z) (s : Player) : exn + Player :=
  match playlist s with
  | [] => inr s
  | _ :: _ =>
      let s1 :=
        if is_shuffled s
        then set_current_track_index (Py.randint 0 (playlist_len s - 1) rnd) s
        else set_current_track_index
               ((current_track_index s - 1) mod playlist_len s) s in
      play_track s1
  end.

Definition toggle_shuffle (s : Player) : Player :=
  let s1 := set_is_shuffled (negb (is_shuffled s)) s in
  with_ui (ui_set_shuffle_btn
             (if negb (is_shuffled s1) then "🔀 Shuffle" else "🔀 Unshuffle")) s1.

Definition toggle_repeat (s : Player) : Player :=
  let s1 := set_is_repeated (negb (is_repeated s)) s in
  with_ui (ui_set_repeat_btn
             (if negb (is_repeated s1) then "🔁 Repeat" else "🔁 No Repeat")) s1.

(** [save_playlist], [file_path] being the answer of the save dialog (empty
    when cancelled).  A failing [open] leaves the slot with its error. *)
Definition save_playlist (file_path : string) (s : Player) : exn + Player :=
  match playlist s with
  | _ :: _ =>
      if String.eqb file_path "" then inr s
      else
        match json_dump (playlist s) file_path (disk s) with
        | inr d => inr (message_box SaveSuccess (set_disk d s))
        | inl e => inl e
        end
  | [] => inr (message_box NoPlaylist s)
  end.

(** The [for track in self.playlist] loop of [load_playlist]: one row per
    track, until [MP3(track)] raises. *)
Fixpoint load_rows (tracks : list string) (s : Player) : option exn * Player :=
  match tracks with
  | [] => (None, s)
  | track :: rest =>
      let (track_name, s1) := get_track_metadata track s in
      match total_length_of (Py.endswith (Py.lower track) ".mp3") track s1 with
      | inr total_length => load_rows rest (addItem (item_text track_name total_length) s1)
      | inl e => (Some e, s1)
      end
  end.

(** [load_playlist], [file_path] being the answer of the open dialog. *)
Definition load_playlist (file_path : string) (s : Player) : Player :=
  if String.eqb file_path "" then s
  else
    match json_load (disk s) file_path with
    | inr tracks =>
        let s1 := clear_items (set_playlist tracks s) in
        match load_rows tracks s1 with
        | (None, s2) => message_box LoadSuccess s2
        | (Some e, s2) =>
            message_box (LoadError e) (logging_error (LoadPlaylistErrorLog e) s2)
        end
    | inl e => message_box (LoadError e) (logging_error (LoadPlaylistErrorLog e) s)
    end.

(** The music plays to its end.  The source connects nothing to that event
    (no end event is set on the mixer, and the three timer slots only write
    to labels and the progress bar): the player's attributes stay as they are. *)
Definition track_ends (s : Player) : Player := with_mixer mixer_music_ends s.

(** A file disappears from the disk, outside the player. *)
Definition remove_file (path : string) (s : Player) : Player :=
  set_disk {| files := delete path (files (disk s)); read_only := read_only (disk s) |} s.

(** The state [__init__] leaves, over a given disk. *)
Definition init (d : Disk) : Player :=
  {| playlist := []; current_track_index := 0; is_playing := false;
     is_shuffled := false; is_repeated := false; crossfade_duration := 2;
     ui := {| playlist_widget := []; art_label := None; play_btn := "▶ Play";
              shuffle_btn := "🔀 Shuffle"; repeat_btn := "🔁 Repeat";
              progress_timer := None; equalizer_timer := None;
              visualizer_timer := None; dialogs := [] |};
     mixer := {| music_pos := -1; calls := [] |};
     disk := d; errors_log := [] |}.

(** ** The player as a transition system *)

(** What reaches the window: the buttons, the slider, a double click on a
    row, a drop, and the mixer running out of music.  Each carries what the
    outside supplies: dialog answers, the slider value, the row, the number
    drawn by the random generator. *)
Inductive action :=
| AddTracks (files : list string)
| DropFiles (urls : list string)
| AdjustVolume (value : Z)
| PlaySelected (row : Z)
| TogglePlay
| NextTrack (rnd : Z)
| PrevTrack (rnd : Z)
| ToggleShuffle
| ToggleRepeat
| SavePlaylist (file_path : string)
| LoadPlaylist (file_path : string)
| TrackEnds.

Definition run (a : action) (s : Player) : exn + Player :=
  match a with
  | AddTracks files => inr (add_tracks files s)
  | DropFiles urls => inr (dropEvent urls s)
  | AdjustVolume value => inr (adjust_volume value s)
  | PlaySelected row => play_selected_track row s
  | TogglePlay => inr (toggle_play s)
  | NextTrack rnd => next_track rnd s
  | PrevTrack rnd => prev_track rnd s
  | ToggleShuffle => inr (toggle_shuffle s)
  | ToggleRepeat => inr (toggle_repeat s)
  | SavePlaylist file_path => save_playlist file_path s
  | LoadPlaylist file_path => inr (load_playlist file_path s)
  | TrackEnds => inr (track_ends s)
  end.

(** What the widgets can deliver: a double-clicked item is a row of the
    list widget, a slider value lies in the slider's range. *)
Definition deliverable (a : action) (s : Player) : Prop :=
  match a with
  | PlaySelected row => 0 <= row < Z.of_nat (length (playlist_widget (ui s)))
  | AdjustVolume value =>
      fst volume_slider_range <= value <= snd volume_slider_range
  | _ => True
  end.

Definition is_load (a : action) : bool :=
  match a with LoadPlaylist _ => true | _ => false end.

(** States reached from [init d] by deliverable actions that satisfy
    [allowed] and return. *)
Inductive reachable (allowed : action → Prop) (d : Disk) : Player → Prop :=
| reachable_init : reachable allowed d (init d)
| reachable_step (s : Player) (a : action) (s' : Player) :
    reachable allowed d s → allowed a → deliverable a s → run a s = inr s' →
    reachable allowed d s'.

Definition not_load (a : action) : Prop := is_load a = false.

Definition any_action (a : action) : Prop := True.

(** ** Properties of states *)

(** The current index designates a track: within [0, len) on a playlist
    with tracks, and 0 (as [__init__] leaves it) on an empty one. *)
Definition index_in_bounds (s : Player) : Prop :=
  (playlist s = [] ∧ current_track_index s = 0)
  ∨ 0 <= current_track_index s < playlist_len s.

(** No more rows in the list widget than tracks in the playlist. *)
Definition rows_within (s : Player) : Prop :=
  (length (playlist_widget (ui s)) <= length (playlist s))%nat.

Definition well_formed (s : Player) : Prop := index_in_bounds s ∧ rows_within s.

(** The current track, as [play_track] reads it. *)
Definition current_track (s : Player) : option string :=
  Py.index (playlist s) (current_track_index s).

(** What the slots that only act on playback and widgets leave alone. *)
Definition kept (s s' : Player) : Prop :=
  playlist s' = playlist s
  ∧ current_track_index s' = current_track_index s
  ∧ is_shuffled s' = is_shuffled s
  ∧ is_repeated s' = is_repeated s
  ∧ crossfade_duration s' = crossfade_duration s
  ∧ disk s' = disk s
  ∧ playlist_widget (ui s') = playlist_widget (ui s).


(** The gain of the last [set_volume] call. *)
Definition applied_gain (s : Player) : option Q :=
  match last (calls (mixer s)) with
  | Some (SetVolume g) => Some g
  | _ => None
  end.

(** Clamping into [0.0, 1.0]. *)
Definition clamp01 (v : Q) : Q :=
  if Qle_bool v 0 then 0%Q else if Qle_bool 1 v then 1%Q else v.

(** ** Sample states *)

(** The state a slot leaves when it returns, [s] when it raises. *)
Definition after (r : exn + Player) (s : Player) : Player :=
  match r with inr s' => s' | inl _ => s end.

Definition plain_audio : audio :=
  {| tags := inr None;
     mpeg := inr {| info_length := 180; apic_data := None |};
     mixer_error := None |}.

Definition sample_disk : Disk :=
  {| files := <["/m/a.mp3" := Audio plain_audio]>
                (<["/m/b.flac" := Audio plain_audio]>
                   (<["/m/c.wav" := Audio plain_audio]> ∅));
     read_only := ∅ |}.

(** A disk holding a one-track playlist file. *)
Definition disk_with_list : Disk :=
  {| files := <["/m/short.json" := Json ["/m/a.mp3"]]> (files sample_disk);
     read_only := ∅ |}.

Definition two_tracks : Player :=
  add_tracks ["/m/a.mp3"; "/m/b.flac"] (init sample_disk).

Definition three_tracks (d : Disk) : Player :=
  add_tracks ["/m/a.mp3"; "/m/b.flac"; "/m/c.wav"] (init d).

(** Playing the track of row [row] after a double click on it. *)
Definition playing (row : Z) (s : Player) : Player := after (play_selected_track row s) s.

(** Two tracks, the first one playing, shuffle switched on. *)
Definition shuffled_two : Player := toggle_shuffle (playing 0 two_tracks).

(** Three tracks, the second one playing, shuffle switched on. *)
Definition shuffled_three : Player := toggle_shuffle (playing 1 (three_tracks sample_disk)).

(** Two tracks, the second (and last) one playing. *)
Definition playing_last : Player := playing 1 two_tracks.

(** Three tracks with the last one playing, next to a one-track playlist file. *)
Definition three_at_last : Player := playing 2 (three_tracks disk_with_list).

(** Two tracks saved to a playlist file, after which the second track is
    deleted from the disk. *)
Definition saved_two : Player := after (save_playlist "/m/list.json" two_tracks) two_tracks.

Definition saved_then_stale : Player := remove_file "/m/b.flac" saved_two.

(** ** Themes *)

(** The colours of a theme: the inner dictionaries of [themes], whose keys
    are the same six in both. *)
Record theme_colors := {
  bg_color : string;
  text_color : string;
  btn_bg : string;
  btn_border : string;
  hover_bg : string;
  hover_text : string
}.

Definition neon_80s : theme_colors :=
  {| bg_color := "#1A1A2E"; text_color := "#00FFCC"; btn_bg := "#2E2E4A";
     btn_border := "#00FFCC"; hover_bg := "#00FFCC"; hover_text := "#2E2E4A" |}.

Definition crt_90s : theme_colors :=
  {| bg_color := "#2A2A3A"; text_color := "#FFD700"; btn_bg := "#4A2C2A";
     btn_border := "#FFD700"; hover_bg := "#FFD700"; hover_text := "#4A2C2A" |}.

Definition themes : gmap string theme_colors :=
  <["80s_neon" := neon_80s]> (<["90s_crt" := crt_90s]> ∅).

#[global] Instance theme_colors_inhabited : Inhabited theme_colors := populate neon_80s.

(** The text [setup_style] formats for [setStyleSheet]. *)
Definition style_sheet (c : theme_colors) : string :=
  String.concat ""
    [ "
            QMainWindow {
                background-color: ";
      bg_color c;
      ";
                color: ";
      text_color c;
      ";
                border: 3px solid ";
      btn_border c;
      ";
            }
            QPushButton {
                background-color: ";
      btn_bg c;
      ";
                color: ";
      text_color c;
      ";
                border: 3px solid ";
      btn_border c;
      ";
                padding: 12px;
                font-family: 'VT323', monospace;
                font-size: 16px;
                text-transform: uppercase;
            }
            QPushButton:hover {
                background-color: ";
      hover_bg c;
      ";
                color: ";
      hover_text c;
      ";
            }
            QLabel {
                color: ";
      text_color c;
      ";
                font-family: 'VT323', monospace;
                font-size: 18px;
            }
            QSlider::handle:horizontal {
                background: ";
      text_color c;
      ";
                width: 20px;
                margin: -6px 0;
                border-radius: 10px;
                border: 2px solid ";
      btn_bg c;
      ";
            }
            QSlider::groove:horizontal {
                background: ";
      btn_bg c;
      ";
                height: 12px;
                border: 2px solid ";
      btn_border c;
      ";
            }
            QProgressBar {
                background-color: ";
      btn_bg c;
      ";
                border: 2px solid ";
      btn_border c;
      ";
                height: 12px;
            }
            QProgressBar::chunk {
                background-color: ";
      text_color c;
      ";
            }
            QListWidget {
                background-color: ";
      bg_color c;
      ";
                color: ";
      text_color c;
      ";
                border: 2px solid ";
      btn_border c;
      ";
                font-family: 'VT323', monospace;
                font-size: 16px;
            }
        " ].

(** [setup_style]: the style sheet it sets on the window.
    [themes.get(theme, themes["80s_neon"])] falls back on the neon theme. *)
Definition setup_style (theme : string) : string :=
  let theme_colors := default (themes !!! "80s_neon") (themes !! theme) in
  style_sheet theme_colors.

Definition change_theme (theme : string) : string := setup_style theme.

(** ** The visualizer *)

(** [s * n] on a string: [n] copies, none for [n <= 0]. *)
Definition repeat_string (s : string) (n : Z) : string :=
  String.concat "" (replicate (Z.to_nat n) s).

(** The bar heights of [update_visualizer]:
    [max(1, int(random.uniform(1, 10)))], eight times; [uniform i] is the
    value the i-th call of [random.uniform(1, 10)] returns. *)
Definition visualizer_bars (uniform : nat → Q) : list Z :=
  map (fun i => Z.max 1 (Py.int (uniform i))) (seq 0 8).

(** [update_visualizer]: the text it sets on the visualizer label. *)
Definition update_visualizer (uniform : nat → Q) (s : Player) : string :=
  if is_playing s then
    let bars := visualizer_bars uniform in
    let visualizer_text := String.concat " " (map (repeat_string "█") bars) in
    "Visualizer: " +:+ visualizer_text
  else "Visualizer: [   ]".

(** ** Readings of the disk *)

(** The name [get_track_metadata] returns for [file] over the disk [d]. *)
Definition track_name (d : Disk) (file : string) : string :=
  fst (get_track_metadata file (init d)).

(** The row text for [file], when its length can be read. *)
Definition row_text (d : Disk) (is_mp3 : bool) (file : string) : option string :=
  match total_length_of is_mp3 file (init d) with
  | inr total_length => Some (item_text (track_name d file) total_length)
  | inl _ => None
  end.

(** The row [add_tracks] and [dropEvent] add for [file], if any. *)
Definition added_row (d : Disk) (file : string) : option string :=
  if supported (file_ext file)
  then row_text d (String.eqb (file_ext file) ".mp3") file
  else None.

(** The row [load_playlist] adds for [track], [None] when reading it raises. *)
Definition loaded_row (d : Disk) (track : string) : option string :=
  row_text d (Py.endswith (Py.lower track) ".mp3") track.

(** The rows before the first entry that raises. *)
Fixpoint rows_until_error (rows : list (option string)) : list string :=
  match rows with
  | Some row :: rest => row :: rows_until_error rest
  | _ => []
  end.

Definition set_errors_log (l : list log_entry) (s : Player) : Player :=
  {| playlist := playlist s; current_track_index := current_track_index s;
     is_playing := is_playing s; is_shuffled := is_shuffled s;
     is_repeated := is_repeated s; crossfade_duration := crossfade_duration s;
     ui := ui s; mixer := mixer s; disk := disk s; errors_log := l |}.

(** The buttons and timers say what the flags say: the timers run, at
    1000, 100 and 50 ms, exactly while [is_playing] is set, and each button
    carries the text its slot last gave it for the value of its flag. *)
Definition controls_agree (s : Player) : Prop :=
  (if is_playing s
   then play_btn (ui s) = "⏸ Pause"
        ∧ progress_timer (ui s) = Some 1000
        ∧ equalizer_timer (ui s) = Some 100
        ∧ visualizer_timer (ui s) = Some 50
   else play_btn (ui s) = "▶ Play"
        ∧ progress_timer (ui s) = None
        ∧ equalizer_timer (ui s) = None
        ∧ visualizer_timer (ui s) = None)
  ∧ shuffle_btn (ui s) = (if is_shuffled s then "🔀 Unshuffle" else "🔀 Shuffle")
  ∧ repeat_btn (ui s) = (if is_repeated s then "🔁 No Repeat" else "🔁 Repeat").

(** The flags, buttons and timers of a state. *)
Definition controls (s : Player)
  : bool * bool * bool * Q * (string * string * string) * (timer * timer * timer) :=
  (is_playing s, is_shuffled s, is_repeated s, crossfade_duration s,
   (play_btn (ui s), shuffle_btn (ui s), repeat_btn (ui s)),
   (progress_timer (ui s), equalizer_timer (ui s), visualizer_timer (ui s))).

(** The mixer calls of [play_track] before it loads: the fade-out of the
    music that plays. *)
Definition fadeout_calls (s : Player) : list mixer_call :=
  if is_playing s then [Fadeout (Py.int (crossfade_duration s * 1000)%Q)] else [].

(** A disk on which the mixer cannot load the second track. *)
Definition broken_audio : audio :=
  {| tags := inl MutagenError; mpeg := inl MutagenError; mixer_error := Some PygameError |}.

Definition disk_with_broken : Disk :=
  {| files := <["/m/bad.mp3" := Audio broken_audio]> (files sample_disk);
     read_only := {["/m/locked.json"]} |}.

(** One good track and one the libraries cannot read, both added. *)
Definition good_and_broken : Player :=
  add_tracks ["/m/a.mp3"; "/m/bad.mp3"] (init disk_with_broken).

(** A single track, played to its end. *)
Definition single_ended : Player :=
  track_ends (playing 0 (add_tracks ["/m/a.mp3"] (init sample_disk))).

(** The index [next_track] and [prev_track] assign before they play. *)
Definition next_index (rnd : Z) (s : Player) : Z :=
  if is_shuffled s then Py.randint 0 (playlist_len s - 1) rnd
  else (current_track_index s + 1) mod playlist_len s.

Definition prev_index (rnd : Z) (s : Player) : Z :=
  if is_shuffled s then Py.randint 0 (playlist_len s - 1) rnd
  else (current_track_index s - 1) mod playlist_len s.

(** Eight values for [random.uniform(1, 10)]: 1.5, 2.5, ... *)
Definition sample_uniform (i : nat) : Q := (inject_Z (Z.of_nat i) + (3 # 2))%Q.

(** One good track playing, the index moved to the track the mixer cannot
    load. *)
Definition broken_is_next : Player :=
  set_current_track_index 1 (playing 0 good_and_broken).

(** The actions that assign the current index. *)
Definition sets_index (a : action) : bool :=
  match a with
  | NextTrack _ | PrevTrack _ | PlaySelected _ => true
  | _ => false
  end.

(** Three tracks, the last one playing, then a one-track playlist loaded. *)
Definition loaded_short : Player := load_playlist "/m/short.json" three_at_last.

(** The log of [s'] is the log of [s] with lines added at its end. *)
Definition log_grows (s s' : Player) : Prop :=
  ∃ more, errors_log s' = (errors_log s ++ more)%list.

(** The name of the log file. *)
Definition log_file_name : string := "player_errors.log".

(** ** Basic facts *)

Example splitext_song : Py.splitext "/music/My.Song.MP3" = ("/music/My.Song", ".MP3").
Proof. reflexivity. Qed.

Example splitext_hidden : Py.splitext "/music/.mp3" = ("/music/.mp3", "").
Proof. reflexivity. Qed.

Example splitext_dotted_directory : Py.splitext "/mu.sic/song" = ("/mu.sic/song", "").
Proof. reflexivity. Qed.

Example basename_song : Py.basename "/music/a.mp3" = "a.mp3".
Proof. reflexivity. Qed.

Example file_ext_upper : file_ext "/music/My.Song.MP3" = ".mp3".
Proof. reflexivity. Qed.

Example index_from_the_end : Py.index ["a"; "b"; "c"] (-1) = Some "c".
Proof. reflexivity. Qed.

Example index_past_the_end : Py.index ["a"; "b"; "c"] 3 = None.
Proof. reflexivity. Qed.

Example rows_of_two_tracks :
  playlist_widget (ui two_tracks) = ["a.mp3 (180s)"; "b.flac (0s)"].
Proof. vm_compute. reflexivity. Qed.

(** Two tracks, the first one playing, shuffle and repeat off: [next_track]
    moves to index 1, and called again while the music plays it wraps to
    index 0 and plays the first track. *)
Example next_twice_wraps :
  ∃ s1 s2, next_track 0 (playing 0 two_tracks) = inr s1
           ∧ current_track_index s1 = 1
           ∧ next_track 0 s1 = inr s2
           ∧ current_track_index s2 = 0
           ∧ is_playing s2 = true
           ∧ last (calls (mixer s2)) = Some Play.
Proof.
  eexists. eexists.
  split; [vm_compute; reflexivity |]. split; [reflexivity |].
  split; [vm_compute; reflexivity |]. repeat split.
Qed.

Lemma index_in_range {A} (l : list A) (i : Z) :
  0 <= i < Z.of_nat (length l) → ∃ x, Py.index l i = Some x ∧ x ∈ l.
Proof.
  intros [Hlo Hhi]. unfold Py.index.
  assert (Hb : (0 <=? i) && (i <? Z.of_nat (length l)) = true).
  { apply andb_true_iff. split; [apply Z.leb_le | apply Z.ltb_lt]; lia. }
  rewrite Hb.
  destruct (lookup_lt_is_Some_2 l (Z.to_nat i)) as [x Hx]; [lia |].
  exists x. split; [exact Hx |]. apply list_elem_of_lookup. eauto.
Qed.

Lemma randint_range (a b rnd : Z) : a <= b → a <= Py.randint a b rnd <= b.
Proof.
  intros Hab. unfold Py.randint.
  pose proof (Z.mod_pos_bound rnd (b - a + 1)). lia.
Qed.

Lemma randint_onto (a b k : Z) : a <= k <= b → Py.randint a b (k - a) = k.
Proof.
  intros Hk. unfold Py.randint. rewrite Z.mod_small; lia.
Qed.

Lemma playlist_len_pos (s : Player) : playlist s ≠ [] → 0 < playlist_len s.
Proof.
  unfold playlist_len. destruct (playlist s); [congruence | simpl; lia].
Qed.

(** *** What playback leaves alone *)

(** Closes [kept s s'] when [s'] is [s] under attribute and widget updates. *)
Ltac kept_by_computation := unfold kept; simpl; repeat split; reflexivity.

Lemma kept_refl (s : Player) : kept s s.
Proof. kept_by_computation. Qed.

Lemma kept_trans (s1 s2 s3 : Player) : kept s1 s2 → kept s2 s3 → kept s1 s3.
Proof. unfold kept. intros H12 H23. intuition congruence. Qed.

Lemma kept_title_or_basename file r s : kept s (snd (title_or_basename file r s)).
Proof. destruct r as [e | [t |]]; kept_by_computation. Qed.

Lemma kept_get_track_metadata file s : kept s (snd (get_track_metadata file s)).
Proof.
  unfold get_track_metadata.
  repeat (case (String.eqb _ _); [apply kept_title_or_basename |]).
  apply kept_refl.
Qed.

Lemma kept_update_album_art file s : kept s (update_album_art file s).
Proof.
  unfold update_album_art.
  case (Py.endswith _ _); [| kept_by_computation].
  destruct (MP3 (disk s) file) as [e | audio]; [kept_by_computation |].
  destruct (apic_data audio); kept_by_computation.
Qed.

Lemma kept_toggle_play s : kept s (toggle_play s).
Proof. unfold toggle_play. destruct (is_playing s); kept_by_computation. Qed.

Lemma kept_play_track s s' : play_track s = inr s' → kept s s'.
Proof.
  unfold play_track. destruct (playlist s) as [| t l] eqn:Hl.
  - intros [= <-]. apply kept_refl.
  - destruct (Py.index (t :: l) (current_track_index s)) as [track |]; [| discriminate].
    set (s1 := if is_playing s then _ else s).
    assert (H1 : kept s s1) by (subst s1; destruct (is_playing s); kept_by_computation).
    destruct (mixer_load_error (disk s1) track) as [e |].
    + intros [= <-]. eapply kept_trans; [exact H1 | kept_by_computation].
    + destruct (get_track_metadata track _) as [name s3] eqn:Hm.
      intros [= <-].
      pose proof (kept_get_track_metadata track (mixer_music Play (mixer_music (Load track) s1))) as H3.
      rewrite Hm in H3. simpl in H3.
      pose proof (kept_update_album_art track s3) as H4.
      eapply kept_trans; [exact H1 |].
      eapply kept_trans; [| eapply kept_trans; [exact H3 |]].
      * kept_by_computation.
      * eapply kept_trans; [exact H4 | kept_by_computation].
Qed.

(** [play_track] returns as soon as the current index designates a track. *)
Lemma play_track_returns s :
  playlist s = [] ∨ is_Some (current_track s) → ∃ s', play_track s = inr s'.
Proof.
  unfold play_track, current_track. intros H.
  destruct (playlist s) as [| t l] eqn:Hl; [eauto |].
  destruct H as [H | [track H]]; [discriminate |].
  rewrite H.
  destruct (mixer_load_error _ track); [eauto |].
  destruct (get_track_metadata track _); eauto.
Qed.

(** *** Next and previous *)

Lemma play_track_at (i : Z) (s : Player) :
  0 <= i < playlist_len s →
  ∃ s', play_track (set_current_track_index i s) = inr s'
        ∧ kept (set_current_track_index i s) s'.
Proof.
  intros Hi.
  destruct (play_track_returns (set_current_track_index i s)) as [s' Hs'].
  - right. unfold current_track. simpl.
    destruct (index_in_range (playlist s) i Hi) as (x & Hx & _). rewrite Hx. eauto.
  - exists s'. split; [exact Hs' | exact (kept_play_track _ _ Hs')].
Qed.

Lemma next_track_returns (rnd : Z) (s : Player) :
  playlist s ≠ [] →
  ∃ s', next_track rnd s = inr s'
        ∧ kept (set_current_track_index
                  (if is_shuffled s then Py.randint 0 (playlist_len s - 1) rnd
                   else (current_track_index s + 1) mod playlist_len s) s) s'.
Proof.
  intros Hne. pose proof (playlist_len_pos s Hne) as Hpos.
  unfold next_track. destruct (playlist s) as [| t l] eqn:Hl; [congruence |].
  set (i := if is_shuffled s then Py.randint 0 (playlist_len s - 1) rnd
            else (current_track_index s + 1) mod playlist_len s).
  assert (Hi : 0 <= i < playlist_len s).
  { subst i. destruct (is_shuffled s).
    - pose proof (randint_range 0 (playlist_len s - 1) rnd). lia.
    - apply Z.mod_pos_bound. exact Hpos. }
  replace (if is_shuffled s then set_current_track_index _ s else _)
    with (set_current_track_index i s) by (subst i; destruct (is_shuffled s); reflexivity).
  destruct (_ && _).
  - eexists. split; [reflexivity | apply kept_toggle_play].
  - apply play_track_at. exact Hi.
Qed.

Lemma prev_track_returns (rnd : Z) (s : Player) :
  playlist s ≠ [] →
  ∃ s', prev_track rnd s = inr s'
        ∧ kept (set_current_track_index
                  (if is_shuffled s then Py.randint 0 (playlist_len s - 1) rnd
                   else (current_track_index s - 1) mod playlist_len s) s) s'.
Proof.
  intros Hne. pose proof (playlist_len_pos s Hne) as Hpos.
  unfold prev_track. destruct (playlist s) as [| t l] eqn:Hl; [congruence |].
  set (i := if is_shuffled s then Py.randint 0 (playlist_len s - 1) rnd
            else (current_track_index s - 1) mod playlist_len s).
  assert (Hi : 0 <= i < playlist_len s).
  { subst i. destruct (is_shuffled s).
    - pose proof (randint_range 0 (playlist_len s - 1) rnd). lia.
    - apply Z.mod_pos_bound. exact Hpos. }
  replace (if is_shuffled s then set_current_track_index _ s else _)
    with (set_current_track_index i s) by (subst i; destruct (is_shuffled s); reflexivity).
  apply play_track_at. exact Hi.
Qed.

(** C1 (as stated, refuted): two tracks, shuffle on, the first one playing;
    the draw 0 makes [next_track] select index 0 again. *)
Lemma next_track_shuffle_may_repeat :
  (1 < length (playlist shuffled_two))%nat
  ∧ is_shuffled shuffled_two = true
  ∧ ∃ s', next_track 0 shuffled_two = inr s'
          ∧ current_track_index s' = current_track_index shuffled_two.
Proof.
  vm_compute. split; [lia |]. split; [reflexivity |].
  eexists. split; reflexivity.
Qed.

(** C1 (amended): on a playlist with tracks and shuffle enabled,
    [next_track] returns with the current index at [randint(0, len - 1)],
    an index of the playlist; every index of the playlist, the current one
    included, is selected by some draw. *)
Theorem next_track_shuffle_in_range (s : Player) :
  playlist s ≠ [] → is_shuffled s = true →
  (∀ rnd, ∃ s', next_track rnd s = inr s'
                ∧ current_track_index s' = Py.randint 0 (playlist_len s - 1) rnd
                ∧ 0 <= current_track_index s' < playlist_len s)
  ∧ (∀ k, 0 <= k < playlist_len s →
          ∃ rnd s', next_track rnd s = inr s' ∧ current_track_index s' = k).
Proof.
  intros Hne Hsh. split.
  - intros rnd. destruct (next_track_returns rnd s Hne) as (s' & Hrun & Hk).
    rewrite Hsh in Hk. destruct Hk as (_ & Hidx & _). simpl in Hidx.
    exists s'. split; [exact Hrun |]. split; [exact Hidx |].
    rewrite Hidx. pose proof (playlist_len_pos s Hne).
    pose proof (randint_range 0 (playlist_len s - 1) rnd). lia.
  - intros k Hk. exists (k - 0).
    destruct (next_track_returns (k - 0) s Hne) as (s' & Hrun & Hkept).
    rewrite Hsh in Hkept. destruct Hkept as (_ & Hidx & _). simpl in Hidx.
    exists s'. split; [exact Hrun |].
    rewrite Hidx. apply randint_onto. lia.
Qed.

Lemma next_track_shuffle_in_range_witness :
  (∀ rnd, ∃ s', next_track rnd shuffled_two = inr s'
                ∧ current_track_index s'
                  = Py.randint 0 (playlist_len shuffled_two - 1) rnd
                ∧ 0 <= current_track_index s' < playlist_len shuffled_two)
  ∧ (∀ k, 0 <= k < playlist_len shuffled_two →
          ∃ rnd s', next_track rnd shuffled_two = inr s'
                    ∧ current_track_index s' = k).
Proof.
  apply (next_track_shuffle_in_range shuffled_two).
  - vm_compute. discriminate.
  - reflexivity.
Defined.

(** C2 (as stated, refuted): three tracks, the second one playing, shuffle
    on; with the draw 2, [prev_track] selects index 2, not (1 - 1) mod 3. *)
Lemma prev_track_shuffle_not_predecessor :
  playlist shuffled_three ≠ []
  ∧ ∃ s', prev_track 2 shuffled_three = inr s'
          ∧ current_track_index s'
            ≠ (current_track_index shuffled_three - 1) mod playlist_len shuffled_three.
Proof.
  split; [vm_compute; discriminate |].
  eexists. split; [vm_compute; reflexivity |]. vm_compute. discriminate.
Qed.

(** C2 (amended): on a playlist with tracks, [prev_track] returns with the
    current index at (current - 1) mod length when shuffle is disabled, and
    at [randint(0, len - 1)], an index of the playlist, when shuffle is
    enabled. *)
Theorem prev_track_index (rnd : Z) (s : Player) :
  playlist s ≠ [] →
  ∃ s', prev_track rnd s = inr s'
        ∧ (is_shuffled s = false →
           current_track_index s' = (current_track_index s - 1) mod playlist_len s)
        ∧ (is_shuffled s = true →
           current_track_index s' = Py.randint 0 (playlist_len s - 1) rnd
           ∧ 0 <= current_track_index s' < playlist_len s).
Proof.
  intros Hne. destruct (prev_track_returns rnd s Hne) as (s' & Hrun & Hk).
  destruct Hk as (_ & Hidx & _). simpl in Hidx.
  exists s'. split; [exact Hrun |]. split; intros Hsh; rewrite Hsh in Hidx.
  - exact Hidx.
  - split; [exact Hidx |]. rewrite Hidx.
    pose proof (playlist_len_pos s Hne).
    pose proof (randint_range 0 (playlist_len s - 1) rnd). lia.
Qed.

Lemma prev_track_index_witness :
  ∃ s', prev_track 2 two_tracks = inr s'
        ∧ (is_shuffled two_tracks = false →
           current_track_index s'
           = (current_track_index two_tracks - 1) mod playlist_len two_tracks)
        ∧ (is_shuffled two_tracks = true →
           current_track_index s' = Py.randint 0 (playlist_len two_tracks - 1) 2
           ∧ 0 <= current_track_index s' < playlist_len two_tracks).
Proof.
  apply (prev_track_index 2 two_tracks). vm_compute. discriminate.
Defined.

(** C7: on a playlist of n > 0 tracks with shuffle disabled, [next_track]
    returns with the current index at (i + 1) mod n, i being the index
    before the call. *)
Theorem next_track_successor (rnd : Z) (s : Player) :
  playlist s ≠ [] → is_shuffled s = false →
  ∃ s', next_track rnd s = inr s'
        ∧ current_track_index s' = (current_track_index s + 1) mod playlist_len s.
Proof.
  intros Hne Hsh. destruct (next_track_returns rnd s Hne) as (s' & Hrun & Hk).
  rewrite Hsh in Hk. destruct Hk as (_ & Hidx & _).
  exists s'. split; [exact Hrun | exact Hidx].
Qed.

Lemma next_track_successor_witness :
  ∃ s', next_track 0 playing_last = inr s'
        ∧ current_track_index s'
          = (current_track_index playing_last + 1) mod playlist_len playing_last.
Proof.
  apply (next_track_successor 0 playing_last).
  - vm_compute. discriminate.
  - reflexivity.
Defined.

(** C10: in every state, [next_track] and [prev_track] return and leave
    the playlist, the shuffle flag, the repeat flag and the crossfade
    duration as they were. *)
Theorem next_prev_frame (rnd : Z) (s : Player) :
  (∃ s', next_track rnd s = inr s'
         ∧ playlist s' = playlist s
         ∧ is_shuffled s' = is_shuffled s
         ∧ is_repeated s' = is_repeated s
         ∧ crossfade_duration s' = crossfade_duration s)
  ∧ (∃ s', prev_track rnd s = inr s'
           ∧ playlist s' = playlist s
           ∧ is_shuffled s' = is_shuffled s
           ∧ is_repeated s' = is_repeated s
           ∧ crossfade_duration s' = crossfade_duration s).
Proof.
  destruct (playlist s) as [| t l] eqn:Hl.
  - unfold next_track, prev_track. rewrite Hl.
    split; exists s; rewrite Hl; tauto.
  - assert (Hne : playlist s ≠ []) by (rewrite Hl; discriminate).
    rewrite <- Hl. split.
    + destruct (next_track_returns rnd s Hne) as (s' & Hrun & Hk).
      exists s'. split; [exact Hrun |]. unfold kept in Hk. simpl in Hk. tauto.
    + destruct (prev_track_returns rnd s Hne) as (s' & Hrun & Hk).
      exists s'. split; [exact Hrun |]. unfold kept in Hk. simpl in Hk. tauto.
Qed.

(** C9: [toggle_shuffle] negates the shuffle flag and [toggle_repeat] the
    repeat flag; each leaves every other attribute, the mixer, the disk and
    the log as they were, and applied twice gives back the original flag. *)
Theorem toggles_involutive (s : Player) :
  (is_shuffled (toggle_shuffle s) = negb (is_shuffled s)
   ∧ is_shuffled (toggle_shuffle (toggle_shuffle s)) = is_shuffled s
   ∧ is_repeated (toggle_shuffle s) = is_repeated s
   ∧ playlist (toggle_shuffle s) = playlist s
   ∧ current_track_index (toggle_shuffle s) = current_track_index s
   ∧ is_playing (toggle_shuffle s) = is_playing s
   ∧ crossfade_duration (toggle_shuffle s) = crossfade_duration s
   ∧ mixer (toggle_shuffle s) = mixer s
   ∧ disk (toggle_shuffle s) = disk s
   ∧ errors_log (toggle_shuffle s) = errors_log s)
  ∧ (is_repeated (toggle_repeat s) = negb (is_repeated s)
     ∧ is_repeated (toggle_repeat (toggle_repeat s)) = is_repeated s
     ∧ is_shuffled (toggle_repeat s) = is_shuffled s
     ∧ playlist (toggle_repeat s) = playlist s
     ∧ current_track_index (toggle_repeat s) = current_track_index s
     ∧ is_playing (toggle_repeat s) = is_playing s
     ∧ crossfade_duration (toggle_repeat s) = crossfade_duration s
     ∧ mixer (toggle_repeat s) = mixer s
     ∧ disk (toggle_repeat s) = disk s
     ∧ errors_log (toggle_repeat s) = errors_log s).
Proof.
  split; simpl; repeat split; apply negb_involutive.
Qed.

(** *** End of a track *)

(** C4 (as stated, refuted): two tracks, the last one playing, repeat off.
    When the music plays to its end the player is still flagged playing:
    nothing in the player reacts to the end of a track. *)
Lemma track_end_does_not_stop :
  is_repeated playing_last = false
  ∧ current_track_index playing_last = playlist_len playing_last - 1
  ∧ is_playing playing_last = true
  ∧ is_playing (track_ends playing_last) = true.
Proof. vm_compute. repeat split. Qed.

(** C4 (amended): with repeat and shuffle disabled and the last track
    current, once the music has played to its end the next call of
    [next_track] returns with the index at 0, pauses the mixer without
    loading or playing anything, and clears the playing flag when it was
    set.  The end of the music alone changes no attribute of the player. *)
Theorem next_track_after_last_ended (rnd : Z) (s : Player) :
  playlist s ≠ [] → is_shuffled s = false → is_repeated s = false →
  current_track_index s = playlist_len s - 1 → is_playing s = true →
  kept s (track_ends s)
  ∧ is_playing (track_ends s) = true
  ∧ ∃ s', next_track rnd (track_ends s) = inr s'
          ∧ current_track_index s' = 0
          ∧ is_playing s' = false
          ∧ calls (mixer s') = (calls (mixer s) ++ [Pause])%list.
Proof.
  intros Hne Hsh Hrep Hidx Hplay.
  split; [kept_by_computation |]. split; [exact Hplay |].
  pose proof (playlist_len_pos s Hne) as Hpos.
  unfold next_track. simpl.
  destruct (playlist s) as [| t l] eqn:Hl; [congruence |].
  rewrite Hsh. simpl. rewrite Hrep, Hidx. simpl.
  assert (Hwrap : (playlist_len s - 1 + 1) mod playlist_len (track_ends s) = 0).
  { replace (playlist_len (track_ends s)) with (playlist_len s) by reflexivity.
    replace (playlist_len s - 1 + 1) with (playlist_len s) by lia.
    apply Z.mod_same. lia. }
  rewrite Hwrap. simpl.
  eexists. split; [reflexivity |].
  unfold toggle_play. simpl. rewrite Hplay. simpl.
  repeat split.
Qed.

Lemma next_track_after_last_ended_witness :
  kept playing_last (track_ends playing_last)
  ∧ is_playing (track_ends playing_last) = true
  ∧ ∃ s', next_track 0 (track_ends playing_last) = inr s'
          ∧ current_track_index s' = 0
          ∧ is_playing s' = false
          ∧ calls (mixer s') = (calls (mixer playing_last) ++ [Pause])%list.
Proof.
  apply (next_track_after_last_ended 0 playing_last).
  - vm_compute. discriminate.
  - reflexivity.
  - reflexivity.
  - reflexivity.
  - reflexivity.
Defined.

(** *** Volume *)

(** C6 (as stated, refuted): the slot called with -100, that is with the
    gain -1.0, hands -1.0 to the mixer, not 0.0. *)
Lemma adjust_volume_does_not_clamp :
  ∃ g, applied_gain (adjust_volume (-100) (init sample_disk)) = Some g
       ∧ (clamp01 (inject_Z (-100) / 100) == 0)%Q
       ∧ ¬ (g == clamp01 (inject_Z (-100) / 100))%Q.
Proof.
  exists (inject_Z (-100) / 100)%Q.
  split; [reflexivity |]. split; [reflexivity |].
  vm_compute. discriminate.
Qed.

Lemma applied_gain_adjust_volume (value : Z) (s : Player) :
  applied_gain (adjust_volume value s) = Some (inject_Z value / 100)%Q.
Proof.
  unfold applied_gain, adjust_volume. simpl. rewrite last_snoc. reflexivity.
Qed.

(** C6 (amended): [adjust_volume] hands value / 100 to the mixer as it is;
    for the values the volume slider delivers, 0 to 100, that gain lies in
    [0.0, 1.0] and equals its clamped value. *)
Theorem adjust_volume_gain (value : Z) (s : Player) :
  fst volume_slider_range <= value <= snd volume_slider_range →
  calls (mixer (adjust_volume value s))
  = (calls (mixer s) ++ [SetVolume (inject_Z value / 100)%Q])%list
  ∧ applied_gain (adjust_volume value s) = Some (inject_Z value / 100)%Q
  ∧ (0 <= inject_Z value / 100 <= 1)%Q
  ∧ (clamp01 (inject_Z value / 100) == inject_Z value / 100)%Q.
Proof.
  simpl. intros [Hlo Hhi].
  split; [reflexivity |]. split; [apply applied_gain_adjust_volume |].
  assert (Hq : (0 <= inject_Z value / 100 <= 1)%Q).
  { unfold Qle, Qdiv, Qmult, Qinv, inject_Z. simpl. lia. }
  split; [exact Hq |].
  unfold clamp01.
  destruct (Qle_bool (inject_Z value / 100) 0) eqn:H0.
  - apply Qle_bool_iff in H0. apply Qle_antisym; tauto.
  - destruct (Qle_bool 1 (inject_Z value / 100)) eqn:H1; [| reflexivity].
    apply Qle_bool_iff in H1. apply Qle_antisym; tauto.
Qed.

Lemma adjust_volume_gain_witness :
  calls (mixer (adjust_volume 50 two_tracks))
  = (calls (mixer two_tracks) ++ [SetVolume (inject_Z 50 / 100)%Q])%list
  ∧ applied_gain (adjust_volume 50 two_tracks) = Some (inject_Z 50 / 100)%Q
  ∧ (0 <= inject_Z 50 / 100 <= 1)%Q
  ∧ (clamp01 (inject_Z 50 / 100) == inject_Z 50 / 100)%Q.
Proof.
  apply (adjust_volume_gain 50 two_tracks). simpl. lia.
Defined.

(** *** Adding tracks *)

Lemma ui_get_track_metadata file s : ui (snd (get_track_metadata file s)) = ui s.
Proof.
  unfold get_track_metadata, EasyID3, FLAC, OggVorbis.
  repeat (case (String.eqb _ _);
          [destruct (read_tags (disk s) file) as [e | [t |]]; reflexivity |]).
  reflexivity.
Qed.

Lemma dialogs_update_album_art file s :
  dialogs (ui (update_album_art file s)) = dialogs (ui s).
Proof.
  unfold update_album_art.
  case (Py.endswith _ _); [| reflexivity].
  destruct (MP3 (disk s) file) as [e | audio]; [reflexivity |].
  destruct (apic_data audio); reflexivity.
Qed.

Section AddFile.

Variable on_error : string → exn → log_entry.

Lemma add_file_unsupported (file : string) (s : Player) :
  file_ext file ∉ SUPPORTED_FORMATS →
  add_file on_error file s = message_box (UnsupportedFormat (Py.basename file)) s.
Proof.
  intros Hext. unfold add_file, supported.
  rewrite bool_decide_eq_false_2 by exact Hext. reflexivity.
Qed.

Lemma add_file_playlist (file : string) (s : Player) :
  playlist (add_file on_error file s)
  = (playlist s ++ (if supported (file_ext file) then [file] else []))%list.
Proof.
  unfold add_file. destruct (supported (file_ext file)).
  - destruct (get_track_metadata file _) as [name s2] eqn:Hm.
    pose proof (kept_get_track_metadata file (set_playlist (playlist s ++ [file]) s)) as Hk.
    rewrite Hm in Hk. destruct Hk as (Hpl & _). simpl in Hpl.
    destruct (total_length_of _ file s2) as [e | len].
    + simpl. exact Hpl.
    + destruct (kept_update_album_art file (addItem (item_text name len) s2)) as (Hpl' & _).
      rewrite Hpl'. simpl. exact Hpl.
  - simpl. symmetry. apply app_nil_r.
Qed.

Lemma add_file_dialogs (file : string) (s : Player) (d : dialog) :
  d ∈ dialogs (ui s) → d ∈ dialogs (ui (add_file on_error file s)).
Proof.
  intros Hd. unfold add_file. destruct (supported (file_ext file)).
  - destruct (get_track_metadata file _) as [name s2] eqn:Hm.
    pose proof (ui_get_track_metadata file (set_playlist (playlist s ++ [file]) s)) as Hu.
    rewrite Hm in Hu. simpl in Hu.
    destruct (total_length_of _ file s2) as [e | len].
    + simpl. rewrite Hu. apply elem_of_app. left. exact Hd.
    + rewrite dialogs_update_album_art. simpl. rewrite Hu. exact Hd.
  - simpl. apply elem_of_app. left. exact Hd.
Qed.

Lemma add_files_playlist (files : list string) (s : Player) :
  playlist (fold_left (fun s file => add_file on_error file s) files s)
  = (playlist s ++ filter (fun file => supported (file_ext file) = true) files)%list.
Proof.
  revert s. induction files as [| file files IH]; intros s; simpl.
  - symmetry. apply app_nil_r.
  - rewrite IH, add_file_playlist, <- app_assoc. f_equal.
    rewrite filter_cons. destruct (supported (file_ext file)).
    + rewrite decide_True by reflexivity. reflexivity.
    + rewrite decide_False by discriminate. reflexivity.
Qed.

Lemma add_files_dialogs (files : list string) (s : Player) (d : dialog) :
  d ∈ dialogs (ui s) →
  d ∈ dialogs (ui (fold_left (fun s file => add_file on_error file s) files s)).
Proof.
  revert s. induction files as [| file files IH]; intros s Hd; simpl.
  - exact Hd.
  - apply IH, add_file_dialogs, Hd.
Qed.

Lemma add_files_reports (files : list string) (file : string) (s : Player) :
  file ∈ files → file_ext file ∉ SUPPORTED_FORMATS →
  UnsupportedFormat (Py.basename file)
  ∈ dialogs (ui (fold_left (fun s file => add_file on_error file s) files s)).
Proof.
  revert s. induction files as [| f files IH]; intros s Hin Hext.
  - inversion Hin.
  - apply elem_of_cons in Hin. destruct Hin as [<- | Hin]; simpl.
    + apply add_files_dialogs. rewrite add_file_unsupported by exact Hext.
      simpl. apply elem_of_app. right. apply list_elem_of_singleton. reflexivity.
    + apply IH; assumption.
Qed.

Lemma add_files_unsupported (files : list string) (file : string) (s : Player) :
  file ∈ files → file_ext file ∉ SUPPORTED_FORMATS →
  let s' := fold_left (fun s file => add_file on_error file s) files s in
  UnsupportedFormat (Py.basename file) ∈ dialogs (ui s')
  ∧ playlist s'
    = (playlist s ++ filter (fun file => supported (file_ext file) = true) files)%list
  ∧ file ∉ filter (fun file => supported (file_ext file) = true) files.
Proof.
  intros Hin Hext. split; [apply add_files_reports; assumption |].
  split; [apply add_files_playlist |].
  intros Hf. apply list_elem_of_filter in Hf. destruct Hf as [Hs _].
  unfold supported in Hs. apply bool_decide_eq_true_1 in Hs. contradiction.
Qed.

End AddFile.

(** C8: a file whose extension is not in [SUPPORTED_FORMATS], selected in
    the add-tracks dialog or dropped on the window, is answered by the
    "Unsupported Format" warning naming it and is not appended: the playlist
    grows by the supported files of the selection, in order, and by nothing
    else. *)
Theorem unsupported_file_rejected (files : list string) (file : string) (s : Player) :
  file ∈ files → file_ext file ∉ SUPPORTED_FORMATS →
  (UnsupportedFormat (Py.basename file) ∈ dialogs (ui (add_tracks files s))
   ∧ playlist (add_tracks files s)
     = (playlist s ++ filter (fun f => supported (file_ext f) = true) files)%list
   ∧ (UnsupportedFormat (Py.basename file) ∈ dialogs (ui (dropEvent files s)))
   ∧ playlist (dropEvent files s)
     = (playlist s ++ filter (fun f => supported (file_ext f) = true) files)%list)
  ∧ (file ∉ filter (fun f => supported (file_ext f) = true) files)
  ∧ playlist (add_tracks [file] s) = playlist s
  ∧ playlist (dropEvent [file] s) = playlist s.
Proof.
  intros Hin Hext.
  destruct (add_files_unsupported AddTrackErrorLog files file s Hin Hext) as (Ha1 & Ha2 & Hnot).
  destruct (add_files_unsupported DropErrorLog files file s Hin Hext) as (Hd1 & Hd2 & _).
  split; [tauto |]. split; [exact Hnot |].
  unfold add_tracks, dropEvent. simpl.
  rewrite !add_file_unsupported by exact Hext. split; reflexivity.
Qed.

Lemma unsupported_file_rejected_witness :
  (UnsupportedFormat (Py.basename "/m/notes.txt")
   ∈ dialogs (ui (add_tracks ["/m/c.wav"; "/m/notes.txt"] two_tracks))
   ∧ playlist (add_tracks ["/m/c.wav"; "/m/notes.txt"] two_tracks)
     = (playlist two_tracks
        ++ filter (fun f => supported (file_ext f) = true) ["/m/c.wav"; "/m/notes.txt"])%list
   ∧ (UnsupportedFormat (Py.basename "/m/notes.txt")
      ∈ dialogs (ui (dropEvent ["/m/c.wav"; "/m/notes.txt"] two_tracks)))
   ∧ playlist (dropEvent ["/m/c.wav"; "/m/notes.txt"] two_tracks)
     = (playlist two_tracks
        ++ filter (fun f => supported (file_ext f) = true) ["/m/c.wav"; "/m/notes.txt"])%list)
  ∧ ("/m/notes.txt"
     ∉ filter (fun f => supported (file_ext f) = true) ["/m/c.wav"; "/m/notes.txt"])
  ∧ playlist (add_tracks ["/m/notes.txt"] two_tracks) = playlist two_tracks
  ∧ playlist (dropEvent ["/m/notes.txt"] two_tracks) = playlist two_tracks.
Proof.
  apply (unsupported_file_rejected ["/m/c.wav"; "/m/notes.txt"] "/m/notes.txt" two_tracks).
  - apply elem_of_cons. right. apply elem_of_cons. left. reflexivity.
  - apply (bool_decide_eq_false_1 (file_ext "/m/notes.txt" ∈ SUPPORTED_FORMATS)).
    vm_compute. reflexivity.
Defined.

(** *** Saving and loading *)

Lemma load_rows_effect (tracks : list string) (s : Player) :
  let s' := snd (load_rows tracks s) in
  playlist s' = playlist s
  ∧ current_track_index s' = current_track_index s
  ∧ disk s' = disk s
  ∧ dialogs (ui s') = dialogs (ui s)
  ∧ (length (playlist_widget (ui s'))
     <= length (playlist_widget (ui s)) + length tracks)%nat.
Proof.
  revert s. induction tracks as [| track rest IH]; intros s; simpl.
  - repeat split. lia.
  - destruct (get_track_metadata track s) as [name s1] eqn:Hm.
    pose proof (kept_get_track_metadata track s) as Hk.
    pose proof (ui_get_track_metadata track s) as Hu.
    rewrite Hm in Hk, Hu. simpl in Hk, Hu.
    destruct Hk as (Hpl & Hidx & _ & _ & _ & Hdisk & _).
    destruct (total_length_of _ track s1) as [e | len]; simpl.
    + rewrite Hu. repeat split; try assumption. lia.
    + destruct (IH (addItem (item_text name len) s1)) as (Ipl & Iidx & Idisk & Idlg & Irows).
      simpl in *. rewrite Hu in Idlg, Irows. rewrite length_app in Irows. simpl in Irows.
      repeat split; try congruence. lia.
Qed.

Lemma load_playlist_effect (file_path : string) (tracks : list string) (s : Player) :
  file_path ≠ "" → json_load (disk s) file_path = inr tracks →
  let s' := load_playlist file_path s in
  playlist s' = tracks
  ∧ current_track_index s' = current_track_index s
  ∧ ∃ d, dialogs (ui s') = (dialogs (ui s) ++ [d])%list
         ∧ (d = LoadSuccess ∨ ∃ e, d = LoadError e).
Proof.
  intros Hpath Hload. unfold load_playlist.
  rewrite (proj2 (String.eqb_neq file_path "") Hpath), Hload.
  pose proof (load_rows_effect tracks (clear_items (set_playlist tracks s))) as H.
  destruct (load_rows tracks _) as [[e |] s2]; simpl in *;
    destruct H as (Hpl & Hidx & _ & Hdlg & _);
    (split; [exact Hpl |]); (split; [exact Hidx |]);
    eexists; (split; [rewrite Hdlg; reflexivity |]); eauto.
Qed.





(** *** The current index *)

Section AddFileIndex.

Variable on_error : string → exn → log_entry.

Lemma add_file_index_rows (file : string) (s : Player) :
  let s' := add_file on_error file s in
  current_track_index s' = current_track_index s
  ∧ (length (playlist_widget (ui s'))
     <= length (playlist_widget (ui s))
        + (if supported (file_ext file) then 1 else 0))%nat.
Proof.
  unfold add_file. destruct (supported (file_ext file)); simpl.
  - destruct (get_track_metadata file _) as [name s2] eqn:Hm.
    pose proof (kept_get_track_metadata file (set_playlist (playlist s ++ [file]) s)) as Hk.
    rewrite Hm in Hk. destruct Hk as (_ & Hidx & _ & _ & _ & _ & Hrows).
    simpl in Hidx, Hrows.
    destruct (total_length_of _ file s2) as [e | len]; simpl.
    + rewrite Hidx, Hrows. split; [reflexivity | lia].
    + destruct (kept_update_album_art file (addItem (item_text name len) s2))
        as (_ & Hidx' & _ & _ & _ & _ & Hrows').
      rewrite Hidx', Hrows'. simpl. rewrite length_app, Hrows. simpl.
      split; [exact Hidx | lia].
  - split; [reflexivity | lia].
Qed.

Lemma add_files_index_rows (files : list string) (s : Player) :
  let s' := fold_left (fun s file => add_file on_error file s) files s in
  rows_within s →
  current_track_index s' = current_track_index s
  ∧ rows_within s'
  ∧ (length (playlist s) <= length (playlist s'))%nat.
Proof.
  revert s. induction files as [| file files IH]; intros s; simpl; intros Hrows.
  - repeat split; [exact Hrows | lia].
  - destruct (add_file_index_rows file s) as (Hidx & Hw).
    pose proof (add_file_playlist on_error file s) as Hpl.
    assert (Hrows1 : rows_within (add_file on_error file s)).
    { unfold rows_within in *. rewrite Hpl, length_app.
      destruct (supported (file_ext file)); simpl in *; lia. }
    destruct (IH _ Hrows1) as (Iidx & Irows & Ilen).
    split; [congruence |]. split; [exact Irows |].
    rewrite Hpl, length_app in Ilen. lia.
Qed.

End AddFileIndex.

(** What an action does to the current index and to the rows: either the
    index is as before (and, unless the action is a load, the playlist is
    no shorter), or the index designates a track of the new playlist. *)
Lemma run_effect (a : action) (s s' : Player) :
  rows_within s → deliverable a s → run a s = inr s' →
  rows_within s'
  ∧ ((current_track_index s' = current_track_index s
      ∧ (is_load a = false → (length (playlist s) <= length (playlist s'))%nat))
     ∨ 0 <= current_track_index s' < playlist_len s').
Proof.
  intros Hrows Hdel Hrun. destruct a; simpl in Hrun, Hdel.
  - (* add_tracks *)
    injection Hrun as <-.
    destruct (add_files_index_rows AddTrackErrorLog files0 s Hrows) as (Hi & Hr & Hl).
    split; [exact Hr |]. left. split; [exact Hi | intros _; exact Hl].
  - (* dropEvent *)
    injection Hrun as <-.
    destruct (add_files_index_rows DropErrorLog urls s Hrows) as (Hi & Hr & Hl).
    split; [exact Hr |]. left. split; [exact Hi | intros _; exact Hl].
  - (* adjust_volume *)
    injection Hrun as <-. split; [exact Hrows |]. left. split; [reflexivity | simpl; lia].
  - (* play_selected_track *)
    assert (Hrow : 0 <= row < playlist_len s).
    { unfold rows_within in Hrows. unfold playlist_len. lia. }
    destruct (play_track_at row s Hrow) as (s1 & Hs1 & Hk).
    unfold play_selected_track in Hrun. rewrite Hs1 in Hrun. injection Hrun as <-.
    destruct Hk as (Hpl & Hidx & _ & _ & _ & _ & Hw). simpl in *.
    split.
    + unfold rows_within. rewrite Hpl, Hw. exact Hrows.
    + right. unfold playlist_len. rewrite Hidx, Hpl. exact Hrow.
  - (* toggle_play *)
    injection Hrun as <-. destruct (kept_toggle_play s) as (Hpl & Hidx & _ & _ & _ & _ & Hw).
    split.
    + unfold rows_within. rewrite Hpl, Hw. exact Hrows.
    + left. split; [exact Hidx | rewrite Hpl; lia].
  - (* next_track *)
    destruct (playlist s) as [| t l] eqn:Hl.
    + unfold next_track in Hrun. rewrite Hl in Hrun. injection Hrun as <-.
      split; [exact Hrows |]. left. split; [reflexivity | intros _; rewrite Hl; simpl; lia].
    + assert (Hne : playlist s ≠ []) by (rewrite Hl; discriminate).
      pose proof (playlist_len_pos s Hne) as Hpos.
      destruct (next_track_returns rnd s Hne) as (s1 & Hs1 & Hk).
      rewrite Hs1 in Hrun. injection Hrun as <-.
      destruct Hk as (Hpl & Hidx & _ & _ & _ & _ & Hw). simpl in *.
      split.
      * unfold rows_within. rewrite Hpl, Hw. exact Hrows.
      * right. unfold playlist_len in *. rewrite Hidx, Hpl.
        destruct (is_shuffled s).
        -- pose proof (randint_range 0 (Z.of_nat (length (playlist s)) - 1) rnd). lia.
        -- apply Z.mod_pos_bound. exact Hpos.
  - (* prev_track *)
    destruct (playlist s) as [| t l] eqn:Hl.
    + unfold prev_track in Hrun. rewrite Hl in Hrun. injection Hrun as <-.
      split; [exact Hrows |]. left. split; [reflexivity | intros _; rewrite Hl; simpl; lia].
    + assert (Hne : playlist s ≠ []) by (rewrite Hl; discriminate).
      pose proof (playlist_len_pos s Hne) as Hpos.
      destruct (prev_track_returns rnd s Hne) as (s1 & Hs1 & Hk).
      rewrite Hs1 in Hrun. injection Hrun as <-.
      destruct Hk as (Hpl & Hidx & _ & _ & _ & _ & Hw). simpl in *.
      split.
      * unfold rows_within. rewrite Hpl, Hw. exact Hrows.
      * right. unfold playlist_len in *. rewrite Hidx, Hpl.
        destruct (is_shuffled s).
        -- pose proof (randint_range 0 (Z.of_nat (length (playlist s)) - 1) rnd). lia.
        -- apply Z.mod_pos_bound. exact Hpos.
  - (* toggle_shuffle *)
    injection Hrun as <-. split; [exact Hrows |]. left. split; [reflexivity | simpl; lia].
  - (* toggle_repeat *)
    injection Hrun as <-. split; [exact Hrows |]. left. split; [reflexivity | simpl; lia].
  - (* save_playlist *)
    unfold save_playlist in Hrun.
    destruct (playlist s) as [| t l] eqn:Hl.
    + injection Hrun as <-. split; [exact Hrows |]. left. simpl. rewrite Hl. split; [reflexivity | lia].
    + destruct (String.eqb file_path "").
      * injection Hrun as <-. split; [exact Hrows |]. left. rewrite Hl. split; [reflexivity | lia].
      * destruct (json_dump _ file_path (disk s)); [discriminate |].
        injection Hrun as <-. split; [exact Hrows |]. left. simpl. rewrite Hl.
        split; [reflexivity | simpl; lia].
  - (* load_playlist *)
    injection Hrun as <-. unfold load_playlist.
    destruct (String.eqb file_path "").
    { split; [exact Hrows |]. left. split; [reflexivity | discriminate]. }
    destruct (json_load (disk s) file_path) as [e | tracks].
    { split; [exact Hrows |]. left. split; [reflexivity | discriminate]. }
    pose proof (load_rows_effect tracks (clear_items (set_playlist tracks s))) as H.
    destruct (load_rows tracks _) as [[e |] s2]; simpl in *;
      destruct H as (Hpl & Hidx & _ & _ & Hw);
      (split; [unfold rows_within; simpl; rewrite Hpl; exact Hw |]);
      left; (split; [exact Hidx | discriminate]).
  - (* the music ends *)
    injection Hrun as <-. split; [exact Hrows |]. left. split; [reflexivity | simpl; lia].
Qed.

Lemma load_playlist_index (file_path : string) (s : Player) :
  current_track_index (load_playlist file_path s) = current_track_index s.
Proof.
  unfold load_playlist.
  destruct (String.eqb file_path ""); [reflexivity |].
  destruct (json_load (disk s) file_path) as [e | tracks]; [reflexivity |].
  pose proof (load_rows_effect tracks (clear_items (set_playlist tracks s))) as H.
  destruct (load_rows tracks _) as [[e |] s2]; simpl in *; tauto.
Qed.

Lemma init_well_formed (d : Disk) : well_formed (init d).
Proof.
  split.
  - left. split; reflexivity.
  - unfold rows_within. simpl. lia.
Qed.

Lemma run_well_formed (a : action) (s s' : Player) :
  well_formed s → not_load a → deliverable a s → run a s = inr s' → well_formed s'.
Proof.
  intros [Hidx Hrows] Hnl Hdel Hrun.
  destruct (run_effect a s s' Hrows Hdel Hrun) as (Hrows' & [[Hsame Hlen] | Hin]).
  - split; [| exact Hrows']. specialize (Hlen Hnl).
    unfold index_in_bounds, playlist_len in *. rewrite Hsame.
    destruct Hidx as [[Hnil H0] | Hin].
    + destruct (playlist s') as [| t l]; [left; split; [reflexivity | exact H0] |].
      right. rewrite H0. simpl. lia.
    + right. lia.
  - split; [right; exact Hin | exact Hrows'].
Qed.

(** Only a refused [open] makes a slot raise: no slot subscripts the
    playlist out of range. *)
Lemma run_raises (a : action) (s : Player) (e : exn) :
  rows_within s → deliverable a s → run a s = inl e →
  ∃ path, a = SavePlaylist path ∧ e = PermissionError path.
Proof.
  intros Hrows Hdel Hrun. destruct a; simpl in Hrun, Hdel; try discriminate.
  - assert (Hrow : 0 <= row < playlist_len s).
    { unfold rows_within in Hrows. unfold playlist_len. lia. }
    destruct (play_track_at row s Hrow) as (s1 & Hs1 & _).
    unfold play_selected_track in Hrun. congruence.
  - destruct (playlist s) as [| t l] eqn:Hl.
    + unfold next_track in Hrun. rewrite Hl in Hrun. discriminate.
    + destruct (next_track_returns rnd s) as (s1 & Hs1 & _); [rewrite Hl; discriminate |].
      congruence.
  - destruct (playlist s) as [| t l] eqn:Hl.
    + unfold prev_track in Hrun. rewrite Hl in Hrun. discriminate.
    + destruct (prev_track_returns rnd s) as (s1 & Hs1 & _); [rewrite Hl; discriminate |].
      congruence.
  - exists file_path. split; [reflexivity |].
    unfold save_playlist, json_dump in Hrun.
    destruct (playlist s); [discriminate |].
    destruct (String.eqb file_path ""); [discriminate |].
    destruct (decide (file_path ∈ read_only (disk s))); [| discriminate].
    congruence.
Qed.

(** C5 (as stated, refuted): three tracks, the last one playing (index 2);
    loading a playlist file of one track leaves index 2 on a playlist of
    length 1, where it designates no track. *)
Lemma load_leaves_index_out_of_bounds :
  well_formed three_at_last
  ∧ playlist (load_playlist "/m/short.json" three_at_last) = ["/m/a.mp3"]
  ∧ current_track_index (load_playlist "/m/short.json" three_at_last) = 2
  ∧ current_track (load_playlist "/m/short.json" three_at_last) = None
  ∧ ¬ index_in_bounds (load_playlist "/m/short.json" three_at_last).
Proof.
  split; [| split; [| split; [| split]]].
  - split.
    + right. vm_compute. split; [discriminate | reflexivity].
    + unfold rows_within. vm_compute. lia.
  - vm_compute. reflexivity.
  - vm_compute. reflexivity.
  - vm_compute. reflexivity.
  - intros [[Hnil _] | [_ Hlt]].
    + vm_compute in Hnil. discriminate.
    + vm_compute in Hlt. discriminate.
Qed.

Lemma well_formed_without_load (d : Disk) (s : Player) :
  reachable not_load d s → well_formed s.
Proof.
  intros Hreach. induction Hreach as [| s a s' _ IH Hnl Hdel Hrun].
  - apply init_well_formed.
  - exact (run_well_formed a s s' IH Hnl Hdel Hrun).
Qed.

Lemma reachable_rows_within (d : Disk) (s : Player) :
  reachable any_action d s → 0 <= current_track_index s ∧ rows_within s.
Proof.
  intros Hreach. induction Hreach as [| s a s' _ [IHi IHr] _ Hdel Hrun].
  - split; [simpl; lia | apply init_well_formed].
  - destruct (run_effect a s s' IHr Hdel Hrun) as (Hr & [[Hsame _] | Hin]).
    + split; [rewrite Hsame; exact IHi | exact Hr].
    + split; [lia | exact Hr].
Qed.

(** The three actions that assign the index leave it on a track, whatever
    it was before. *)
Lemma sets_index_in_bounds (a : action) (s : Player) :
  sets_index a = true → rows_within s → deliverable a s → playlist s ≠ [] →
  ∃ s', run a s = inr s'
        ∧ playlist s' = playlist s
        ∧ 0 <= current_track_index s' < playlist_len s'.
Proof.
  intros Hset Hrows Hdel Hne. pose proof (playlist_len_pos s Hne) as Hpos.
  destruct a; try discriminate; simpl in Hdel |- *.
  - assert (Hrow : 0 <= row < playlist_len s).
    { unfold rows_within in Hrows. unfold playlist_len. lia. }
    destruct (play_track_at row s Hrow) as (s' & Hrun & Hk).
    destruct Hk as (Hpl & Hidx & _). simpl in Hpl, Hidx.
    exists s'. split; [exact Hrun |]. split; [exact Hpl |].
    unfold playlist_len. rewrite Hpl, Hidx. exact Hrow.
  - destruct (next_track_returns rnd s Hne) as (s' & Hrun & Hk).
    destruct Hk as (Hpl & Hidx & _). simpl in Hpl, Hidx.
    exists s'. split; [exact Hrun |]. split; [exact Hpl |].
    unfold playlist_len in *. rewrite Hpl, Hidx. destruct (is_shuffled s).
    + pose proof (randint_range 0 (Z.of_nat (length (playlist s)) - 1) rnd). lia.
    + apply Z.mod_pos_bound. exact Hpos.
  - destruct (prev_track_returns rnd s Hne) as (s' & Hrun & Hk).
    destruct Hk as (Hpl & Hidx & _). simpl in Hpl, Hidx.
    exists s'. split; [exact Hrun |]. split; [exact Hpl |].
    unfold playlist_len in *. rewrite Hpl, Hidx. destruct (is_shuffled s).
    + pose proof (randint_range 0 (Z.of_nat (length (playlist s)) - 1) rnd). lia.
    + apply Z.mod_pos_bound. exact Hpos.
Qed.

(** C5 (amended): the current index is 0 on an empty playlist and within
    [0, length) otherwise, the current track then being an element of the
    playlist, in the initial state and after any operations none of which
    is [load_playlist]; in every state the player reaches, loads included,
    each operation other than [load_playlist] keeps that invariant when it
    holds before it.  [load_playlist] replaces the playlist and leaves the
    index as it is, so that the index may then lie past the end; it stays
    non-negative, and [next_track], [prev_track] (on a playlist with tracks)
    and [play_selected_track] (on a row of the list widget) return and put
    the index back on a track of the playlist, whatever it was. *)
Theorem index_in_bounds_unless_loaded (d : Disk) (s : Player) :
  reachable any_action d s →
  (0 <= current_track_index s ∧ rows_within s)
  ∧ (reachable not_load d s → index_in_bounds s)
  ∧ (index_in_bounds s → playlist s ≠ [] →
     ∃ track, current_track s = Some track ∧ track ∈ playlist s)
  ∧ (∀ a s', not_load a → deliverable a s → run a s = inr s' →
             index_in_bounds s → index_in_bounds s')
  ∧ (∀ a, sets_index a = true → deliverable a s → playlist s ≠ [] →
          ∃ s', run a s = inr s'
                ∧ index_in_bounds s'
                ∧ ∃ track, current_track s' = Some track ∧ track ∈ playlist s')
  ∧ (∀ file_path,
       current_track_index (load_playlist file_path s) = current_track_index s).
Proof.
  intros Hreach.
  destruct (reachable_rows_within d s Hreach) as [Hnonneg Hrows].
  split; [split; assumption |]. split; [| split; [| split; [| split]]].
  - intros Hnl. exact (proj1 (well_formed_without_load d s Hnl)).
  - intros [[Hnil _] | Hin] Hne; [contradiction |].
    apply index_in_range. exact Hin.
  - intros a s' Hnl Hdel Hrun Hidx.
    exact (proj1 (run_well_formed a s s' (conj Hidx Hrows) Hnl Hdel Hrun)).
  - intros a Hset Hdel Hne.
    destruct (sets_index_in_bounds a s Hset Hrows Hdel Hne) as (s' & Hrun & Hpl & Hin).
    exists s'. split; [exact Hrun |]. split; [right; exact Hin |].
    apply index_in_range. exact Hin.
  - intros file_path. apply load_playlist_index.
Qed.

Lemma index_in_bounds_unless_loaded_witness :
  (0 <= current_track_index loaded_short ∧ rows_within loaded_short)
  ∧ (reachable not_load disk_with_list loaded_short → index_in_bounds loaded_short)
  ∧ (index_in_bounds loaded_short → playlist loaded_short ≠ [] →
     ∃ track, current_track loaded_short = Some track ∧ track ∈ playlist loaded_short)
  ∧ (∀ a s', not_load a → deliverable a loaded_short → run a loaded_short = inr s' →
             index_in_bounds loaded_short → index_in_bounds s')
  ∧ (∀ a, sets_index a = true → deliverable a loaded_short → playlist loaded_short ≠ [] →
          ∃ s', run a loaded_short = inr s'
                ∧ index_in_bounds s'
                ∧ ∃ track, current_track s' = Some track ∧ track ∈ playlist s')
  ∧ (∀ file_path,
       current_track_index (load_playlist file_path loaded_short)
       = current_track_index loaded_short).
Proof.
  apply (index_in_bounds_unless_loaded disk_with_list loaded_short).
  apply (reachable_step any_action disk_with_list three_at_last
           (LoadPlaylist "/m/short.json") loaded_short).
  - apply (reachable_step any_action disk_with_list (three_tracks disk_with_list)
             (PlaySelected 2) three_at_last).
    + apply (reachable_step any_action disk_with_list (init disk_with_list)
               (AddTracks ["/m/a.mp3"; "/m/b.flac"; "/m/c.wav"])
               (three_tracks disk_with_list)).
      * apply reachable_init.
      * exact I.
      * exact I.
      * reflexivity.
    + exact I.
    + vm_compute. split; [discriminate | reflexivity].
    + vm_compute. reflexivity.
  - exact I.
  - exact I.
  - vm_compute. reflexivity.
Defined.

(** With loads allowed, the index stays non-negative, the rows stay within
    the playlist, and no deliverable action raises IndexError. *)
Theorem no_index_error (d : Disk) (s : Player) :
  reachable any_action d s →
  0 <= current_track_index s
  ∧ rows_within s
  ∧ ∀ a, deliverable a s → run a s ≠ inl IndexError.
Proof.
  intros Hreach.
  assert (H : 0 <= current_track_index s ∧ rows_within s).
  { induction Hreach as [| s a s' _ [IHi IHr] _ Hdel Hrun].
    - split; [simpl; lia | apply init_well_formed].
    - destruct (run_effect a s s' IHr Hdel Hrun) as (Hr & [[Hsame _] | Hin]).
      + split; [rewrite Hsame; exact IHi | exact Hr].
      + split; [lia | exact Hr]. }
  destruct H as [Hi Hr]. split; [exact Hi |]. split; [exact Hr |].
  intros a Hdel Hrun.
  destruct (run_raises a s IndexError Hr Hdel Hrun) as (path & _ & Hp). discriminate.
Qed.

(** ** Further properties of the slots *)

(** *** The two helpers only log and set the picture *)

Lemma get_track_metadata_shape (file : string) (s : Player) :
  fst (get_track_metadata file s) = track_name (disk s) file
  ∧ (snd (get_track_metadata file s) = s
     ∨ ∃ e, snd (get_track_metadata file s) = logging_error (MetadataErrorLog file e) s).
Proof.
  unfold track_name, get_track_metadata, EasyID3, FLAC, OggVorbis. simpl.
  repeat (case (String.eqb _ _);
          [destruct (read_tags (disk s) file) as [e | [t |]]; simpl; eauto |]).
  simpl. eauto.
Qed.

Lemma update_album_art_shape (file : string) (s : Player) :
  ∃ art, update_album_art file s = set_art art s
         ∨ ∃ e, update_album_art file s
                = set_art art (logging_error (AlbumArtErrorLog file e) s).
Proof.
  unfold update_album_art.
  case (Py.endswith _ _); [| eauto].
  destruct (MP3 (disk s) file) as [e | audio]; [eauto |].
  destruct (apic_data audio); eauto.
Qed.

Lemma total_length_of_disk (is_mp3 : bool) (file : string) (s : Player) :
  total_length_of is_mp3 file s = total_length_of is_mp3 file (init (disk s)).
Proof. reflexivity. Qed.

Lemma index_None {A} (l : list A) (i : Z) :
  Py.index l i = None ↔ (i < - Z.of_nat (length l) ∨ Z.of_nat (length l) <= i).
Proof.
  unfold Py.index.
  destruct (Z.leb_spec 0 i); destruct (Z.ltb_spec i (Z.of_nat (length l)));
    destruct (Z.leb_spec (- Z.of_nat (length l)) i); destruct (Z.ltb_spec i 0);
    simpl;
    first [ exfalso; lia
          | rewrite lookup_ge_None; lia
          | split; [intros _; lia | reflexivity] ].
Qed.

(** X1: [play_selected_track] raises exactly when the playlist has tracks
    and the row lies outside [-len, len) (a negative row within that range
    counts from the end, as Python subscripts do); IndexError is the only
    exception that leaves it. *)
Theorem play_selected_track_raises (row : Z) (s : Player) :
  (play_selected_track row s = inl IndexError
   ↔ playlist s ≠ [] ∧ (row < - playlist_len s ∨ playlist_len s <= row))
  ∧ (∀ e, play_selected_track row s = inl e → e = IndexError).
Proof.
  unfold play_selected_track, play_track, playlist_len. simpl.
  destruct (playlist s) as [| t l] eqn:Hl.
  - split; [split; [discriminate | intros [H _]; congruence] | discriminate].
  - destruct (Py.index (t :: l) row) as [track |] eqn:Hi.
    + assert (Hsome : ¬ (row < - Z.of_nat (length (t :: l)) ∨ Z.of_nat (length (t :: l)) <= row)).
      { intros H. apply index_None in H. congruence. }
      destruct (mixer_load_error _ track).
      * split; [split; [discriminate | tauto] | discriminate].
      * destruct (get_track_metadata track _).
        split; [split; [discriminate | tauto] | discriminate].
    + apply index_None in Hi.
      split; [split; [intros _; split; [discriminate | exact Hi] | reflexivity] |].
      intros e [= <-]. reflexivity.
Qed.

(** *** Playing a track *)

Lemma index_Some_elem {A} (l : list A) (i : Z) (x : A) :
  Py.index l i = Some x → x ∈ l.
Proof.
  unfold Py.index. intros H.
  destruct (_ && _); [exact (list_elem_of_lookup_2 _ _ _ H) |].
  destruct (_ && _); [exact (list_elem_of_lookup_2 _ _ _ H) | discriminate].
Qed.

Lemma current_track_playlist (s : Player) (track : string) :
  current_track s = Some track → playlist s ≠ [] ∧ track ∈ playlist s.
Proof.
  intros H. pose proof (index_Some_elem _ _ _ H) as Hin.
  split; [| exact Hin]. intros Hnil. rewrite Hnil in Hin. inversion Hin.
Qed.

(** X2: when the mixer cannot load the current track, [play_track] returns
    with the Playback Error box and its log line and nothing loaded or
    played; the playing flag, the buttons and the timers stay as they were,
    although the mixer has been asked to fade out the music that was flagged
    playing.  [fadeout] returns at once: the position the mixer reports is
    the one it reported before the call. *)
Theorem play_track_load_failure (s : Player) (track : string) (e : exn) :
  current_track s = Some track → mixer_load_error (disk s) track = Some e →
  ∃ s', play_track s = inr s'
        ∧ controls s' = controls s
        ∧ dialogs (ui s') = (dialogs (ui s) ++ [PlaybackError (Py.basename track) e])%list
        ∧ errors_log s' = (errors_log s ++ [PlaybackErrorLog track e])%list
        ∧ calls (mixer s') = (calls (mixer s) ++ fadeout_calls s)%list
        ∧ music_pos (mixer s') = music_pos (mixer s).
Proof.
  intros Hcur Herr. destruct (current_track_playlist s track Hcur) as [Hne _].
  unfold play_track. unfold current_track in Hcur.
  destruct (playlist s) as [| t l] eqn:Hl; [congruence |].
  rewrite Hcur.
  replace (disk (if is_playing s then _ else s)) with (disk s)
    by (destruct (is_playing s); reflexivity).
  rewrite Herr. eexists. split; [reflexivity |].
  unfold controls, fadeout_calls.
  destruct (is_playing s) eqn:Hp; simpl; rewrite ?Hp, ?app_nil_r; repeat split.
Qed.

Lemma play_track_load_failure_witness :
  ∃ s', play_track broken_is_next = inr s'
        ∧ controls s' = controls broken_is_next
        ∧ dialogs (ui s')
          = (dialogs (ui broken_is_next)
             ++ [PlaybackError (Py.basename "/m/bad.mp3") PygameError])%list
        ∧ errors_log s'
          = (errors_log broken_is_next ++ [PlaybackErrorLog "/m/bad.mp3" PygameError])%list
        ∧ calls (mixer s') = (calls (mixer broken_is_next) ++ fadeout_calls broken_is_next)%list
        ∧ music_pos (mixer s') = music_pos (mixer broken_is_next).
Proof.
  apply (play_track_load_failure broken_is_next "/m/bad.mp3" PygameError).
  - vm_compute. reflexivity.
  - vm_compute. reflexivity.
Defined.

(** X3: when the mixer loads the current track, [play_track] returns with
    the playing flag set, the play button reading Pause and the three
    timers started at 1000, 100 and 50 ms; the mixer was asked to fade out
    (only if music was flagged playing), then to load that track, an element
    of the playlist, and to play it; no message box is shown and the
    playlist, the index, the other flags, the rows and the disk are kept. *)
Theorem play_track_success (s : Player) (track : string) :
  current_track s = Some track → mixer_load_error (disk s) track = None →
  ∃ s', play_track s = inr s'
        ∧ track ∈ playlist s
        ∧ is_playing s' = true
        ∧ play_btn (ui s') = "⏸ Pause"
        ∧ progress_timer (ui s') = Some 1000
        ∧ equalizer_timer (ui s') = Some 100
        ∧ visualizer_timer (ui s') = Some 50
        ∧ shuffle_btn (ui s') = shuffle_btn (ui s)
        ∧ repeat_btn (ui s') = repeat_btn (ui s)
        ∧ calls (mixer s') = (calls (mixer s) ++ fadeout_calls s ++ [Load track; Play])%list
        ∧ music_pos (mixer s') = 0
        ∧ dialogs (ui s') = dialogs (ui s)
        ∧ kept s s'.
Proof.
  intros Hcur Herr. destruct (current_track_playlist s track Hcur) as [Hne Hin].
  destruct (play_track_returns s) as [s' Hrun]; [right; rewrite Hcur; eauto |].
  exists s'. split; [exact Hrun |]. split; [exact Hin |].
  pose proof (kept_play_track s s' Hrun) as Hk.
  revert Hrun. unfold play_track. unfold current_track in Hcur.
  destruct (playlist s) as [| t l] eqn:Hl; [congruence |].
  rewrite Hcur.
  replace (disk (if is_playing s then _ else s)) with (disk s)
    by (destruct (is_playing s); reflexivity).
  rewrite Herr.
  set (s2 := mixer_music Play _).
  assert (Hcalls : calls (mixer s2)
                   = (calls (mixer s) ++ fadeout_calls s ++ [Load track; Play])%list).
  { subst s2. unfold fadeout_calls. destruct (is_playing s); simpl.
    - rewrite <- !app_assoc. reflexivity.
    - rewrite <- !app_assoc. reflexivity. }
  assert (Hui : dialogs (ui s2) = dialogs (ui s)
                ∧ shuffle_btn (ui s2) = shuffle_btn (ui s)
                ∧ repeat_btn (ui s2) = repeat_btn (ui s)
                ∧ music_pos (mixer s2) = 0).
  { subst s2. destruct (is_playing s); simpl; repeat split. }
  destruct Hui as (Hd & Hsb & Hrb & Hpos).
  clearbody s2.
  destruct (get_track_metadata_shape track s2) as [_ Hshape].
  destruct (get_track_metadata track s2) as [name s3]. simpl in Hshape.
  destruct (update_album_art_shape track s3) as [art Hart].
  intros [= <-].
  repeat match goal with |- _ ∧ _ => split end; [.. | exact Hk];
    destruct Hshape as [Hs3 | [e Hs3]]; destruct Hart as [Ha | [e' Ha]];
    rewrite Ha, Hs3; simpl; congruence.
Qed.

Lemma play_track_success_witness :
  ∃ s', play_track two_tracks = inr s'
        ∧ "/m/a.mp3" ∈ playlist two_tracks
        ∧ is_playing s' = true
        ∧ play_btn (ui s') = "⏸ Pause"
        ∧ progress_timer (ui s') = Some 1000
        ∧ equalizer_timer (ui s') = Some 100
        ∧ visualizer_timer (ui s') = Some 50
        ∧ shuffle_btn (ui s') = shuffle_btn (ui two_tracks)
        ∧ repeat_btn (ui s') = repeat_btn (ui two_tracks)
        ∧ calls (mixer s')
          = (calls (mixer two_tracks) ++ fadeout_calls two_tracks
             ++ [Load "/m/a.mp3"; Play])%list
        ∧ music_pos (mixer s') = 0
        ∧ dialogs (ui s') = dialogs (ui two_tracks)
        ∧ kept two_tracks s'.
Proof.
  apply (play_track_success two_tracks "/m/a.mp3").
  - vm_compute. reflexivity.
  - vm_compute. reflexivity.
Defined.

(** *** Flags, buttons and timers *)

Lemma controls_agree_same (s s' : Player) :
  controls s' = controls s → controls_agree s → controls_agree s'.
Proof.
  unfold controls, controls_agree. intros [= -> -> -> _ -> -> -> -> -> ->]. tauto.
Qed.

Lemma controls_get_track_metadata file s :
  controls (snd (get_track_metadata file s)) = controls s.
Proof.
  destruct (get_track_metadata_shape file s) as [_ [-> | [e ->]]]; reflexivity.
Qed.

Lemma controls_update_album_art file s : controls (update_album_art file s) = controls s.
Proof.
  destruct (update_album_art_shape file s) as [art [-> | [e ->]]]; reflexivity.
Qed.

Lemma controls_add_file on_error file s : controls (add_file on_error file s) = controls s.
Proof.
  unfold add_file. destruct (supported (file_ext file)); [| reflexivity].
  pose proof (controls_get_track_metadata file (set_playlist (playlist s ++ [file]) s)) as Hm.
  destruct (get_track_metadata file _) as [name s2]. simpl in Hm.
  destruct (total_length_of _ file s2) as [e | len].
  - exact Hm.
  - rewrite controls_update_album_art. exact Hm.
Qed.

Lemma controls_add_files on_error files s :
  controls (fold_left (fun s file => add_file on_error file s) files s) = controls s.
Proof.
  revert s. induction files as [| file files IH]; intros s; simpl; [reflexivity |].
  rewrite IH. apply controls_add_file.
Qed.

Lemma controls_load_rows tracks s : controls (snd (load_rows tracks s)) = controls s.
Proof.
  revert s. induction tracks as [| track rest IH]; intros s; simpl; [reflexivity |].
  pose proof (controls_get_track_metadata track s) as Hm.
  destruct (get_track_metadata track s) as [name s1]. simpl in Hm.
  destruct (total_length_of _ track s1) as [e | len]; simpl; [exact Hm |].
  rewrite IH. exact Hm.
Qed.

Lemma controls_load_playlist file_path s : controls (load_playlist file_path s) = controls s.
Proof.
  unfold load_playlist.
  destruct (String.eqb file_path ""); [reflexivity |].
  destruct (json_load (disk s) file_path) as [e | tracks]; [reflexivity |].
  pose proof (controls_load_rows tracks (clear_items (set_playlist tracks s))) as H.
  destruct (load_rows tracks _) as [[e |] s2]; exact H.
Qed.

Lemma controls_agree_toggle_play s : controls_agree s → controls_agree (toggle_play s).
Proof.
  unfold controls_agree, toggle_play. destruct (is_playing s); simpl; tauto.
Qed.

Lemma controls_agree_play_track s s' :
  play_track s = inr s' → controls_agree s → controls_agree s'.
Proof.
  unfold play_track.
  destruct (playlist s) as [| t l]; [intros [= <-]; tauto |].
  destruct (Py.index (t :: l) (current_track_index s)) as [track |]; [| discriminate].
  set (s1 := if is_playing s then _ else s).
  assert (H1 : controls s1 = controls s) by (subst s1; destruct (is_playing s); reflexivity).
  clearbody s1.
  destruct (mixer_load_error (disk s1) track) as [e |].
  - intros [= <-] Hc. apply (controls_agree_same s); [exact H1 | exact Hc].
  - pose proof (controls_get_track_metadata track (mixer_music Play (mixer_music (Load track) s1)))
      as Hm.
    destruct (get_track_metadata track _) as [name s3]. simpl in Hm.
    pose proof (controls_update_album_art track s3) as Ha.
    intros [= <-]. rewrite Hm in Ha.
    change (controls (mixer_music Play (mixer_music (Load track) s1))) with (controls s1) in Ha.
    rewrite H1 in Ha. revert Ha.
    unfold controls, controls_agree. simpl.
    intros [= _ -> -> _ _ -> -> _ _ _]. tauto.
Qed.

Lemma controls_agree_run (a : action) (s s' : Player) :
  run a s = inr s' → controls_agree s → controls_agree s'.
Proof.
  destruct a; simpl; intros Hrun Hc.
  - injection Hrun as <-. apply (controls_agree_same s); [apply controls_add_files | exact Hc].
  - injection Hrun as <-. apply (controls_agree_same s); [apply controls_add_files | exact Hc].
  - injection Hrun as <-. exact Hc.
  - apply (controls_agree_play_track _ _ Hrun). exact Hc.
  - injection Hrun as <-. apply controls_agree_toggle_play, Hc.
  - unfold next_track in Hrun. destruct (playlist s); [injection Hrun as <-; exact Hc |].
    set (s1 := if is_shuffled s then _ else _) in Hrun.
    assert (H1 : controls_agree s1) by (subst s1; destruct (is_shuffled s); exact Hc).
    clearbody s1. destruct (_ && _).
    + injection Hrun as <-. apply controls_agree_toggle_play, H1.
    + exact (controls_agree_play_track _ _ Hrun H1).
  - unfold prev_track in Hrun. destruct (playlist s); [injection Hrun as <-; exact Hc |].
    set (s1 := if is_shuffled s then _ else _) in Hrun.
    assert (H1 : controls_agree s1) by (subst s1; destruct (is_shuffled s); exact Hc).
    clearbody s1. exact (controls_agree_play_track _ _ Hrun H1).
  - injection Hrun as <-. revert Hc. unfold controls_agree. simpl.
    destruct (is_shuffled s); simpl; tauto.
  - injection Hrun as <-. revert Hc. unfold controls_agree. simpl.
    destruct (is_repeated s); simpl; tauto.
  - unfold save_playlist in Hrun. destruct (playlist s).
    + injection Hrun as <-. exact Hc.
    + destruct (String.eqb file_path ""); [injection Hrun as <-; exact Hc |].
      destruct (json_dump _ file_path (disk s)); [discriminate |].
      injection Hrun as <-. exact Hc.
  - injection Hrun as <-.
    apply (controls_agree_same s); [apply controls_load_playlist | exact Hc].
  - injection Hrun as <-. exact Hc.
Qed.

Lemma controls_crossfade (s s' : Player) :
  controls s' = controls s → crossfade_duration s' = crossfade_duration s.
Proof. unfold controls. intros [= _ _ _ H _ _ _ _ _ _]. exact H. Qed.

Lemma crossfade_run (a : action) (s s' : Player) :
  run a s = inr s' → crossfade_duration s' = crossfade_duration s.
Proof.
  destruct a; simpl; intros Hrun.
  - injection Hrun as <-. apply controls_crossfade, controls_add_files.
  - injection Hrun as <-. apply controls_crossfade, controls_add_files.
  - injection Hrun as <-. reflexivity.
  - apply kept_play_track in Hrun. destruct Hrun as (_ & _ & _ & _ & Hx & _). exact Hx.
  - injection Hrun as <-. apply (kept_toggle_play s).
  - unfold next_track in Hrun. destruct (playlist s); [injection Hrun as <-; reflexivity |].
    set (s1 := if is_shuffled s then _ else _) in Hrun.
    assert (H1 : crossfade_duration s1 = crossfade_duration s)
      by (subst s1; destruct (is_shuffled s); reflexivity).
    clearbody s1. rewrite <- H1. destruct (_ && _).
    + injection Hrun as <-. apply (kept_toggle_play s1).
    + apply kept_play_track in Hrun. destruct Hrun as (_ & _ & _ & _ & Hx & _). exact Hx.
  - unfold prev_track in Hrun. destruct (playlist s); [injection Hrun as <-; reflexivity |].
    set (s1 := if is_shuffled s then _ else _) in Hrun.
    assert (H1 : crossfade_duration s1 = crossfade_duration s)
      by (subst s1; destruct (is_shuffled s); reflexivity).
    clearbody s1. rewrite <- H1.
    apply kept_play_track in Hrun. destruct Hrun as (_ & _ & _ & _ & Hx & _). exact Hx.
  - injection Hrun as <-. reflexivity.
  - injection Hrun as <-. reflexivity.
  - unfold save_playlist in Hrun. destruct (playlist s).
    + injection Hrun as <-. reflexivity.
    + destruct (String.eqb file_path ""); [injection Hrun as <-; reflexivity |].
      destruct (json_dump _ file_path (disk s)); [discriminate |].
      injection Hrun as <-. reflexivity.
  - injection Hrun as <-. apply controls_crossfade, controls_load_playlist.
  - injection Hrun as <-. reflexivity.
Qed.

(** X4: in every state the player reaches, the three timers run (at 1000,
    100 and 50 ms) and the play button reads Pause exactly while the playing
    flag is set, the shuffle and repeat buttons carry the text of their
    flag, and the crossfade duration is still the 2 seconds of [__init__]. *)
Theorem controls_follow_flags (d : Disk) (s : Player) :
  reachable any_action d s → controls_agree s ∧ crossfade_duration s = 2%Q.
Proof.
  intros Hreach. induction Hreach as [| s a s' _ [IHc IHx] _ Hdel Hrun].
  - split; [| reflexivity]. unfold controls_agree. simpl. tauto.
  - split; [exact (controls_agree_run a s s' Hrun IHc) |].
    rewrite <- IHx. exact (crossfade_run a s s' Hrun).
Qed.

Lemma controls_follow_flags_witness :
  controls_agree playing_last ∧ crossfade_duration playing_last = 2%Q.
Proof.
  apply (controls_follow_flags sample_disk playing_last).
  apply (reachable_step any_action sample_disk two_tracks (PlaySelected 1) playing_last).
  - apply (reachable_step any_action sample_disk (init sample_disk)
             (AddTracks ["/m/a.mp3"; "/m/b.flac"]) two_tracks).
    + apply reachable_init.
    + exact I.
    + exact I.
    + reflexivity.
  - exact I.
  - vm_compute. split; [discriminate | reflexivity].
  - vm_compute. reflexivity.
Defined.

(** *** The disk *)

Lemma disk_add_file on_error file s : disk (add_file on_error file s) = disk s.
Proof.
  unfold add_file. destruct (supported (file_ext file)); [| reflexivity].
  pose proof (kept_get_track_metadata file (set_playlist (playlist s ++ [file]) s)) as Hm.
  destruct (get_track_metadata file _) as [name s2]. simpl in Hm.
  destruct Hm as (_ & _ & _ & _ & _ & Hd & _).
  destruct (total_length_of _ file s2) as [e | len]; [exact Hd |].
  destruct (kept_update_album_art file (addItem (item_text name len) s2))
    as (_ & _ & _ & _ & _ & Hd' & _).
  rewrite Hd'. exact Hd.
Qed.

Lemma disk_add_files on_error files s :
  disk (fold_left (fun s file => add_file on_error file s) files s) = disk s.
Proof.
  revert s. induction files as [| file files IH]; intros s; simpl; [reflexivity |].
  rewrite IH. apply disk_add_file.
Qed.

Lemma disk_load_playlist file_path s : disk (load_playlist file_path s) = disk s.
Proof.
  unfold load_playlist.
  destruct (String.eqb file_path ""); [reflexivity |].
  destruct (json_load (disk s) file_path) as [e | tracks]; [reflexivity |].
  pose proof (load_rows_effect tracks (clear_items (set_playlist tracks s))) as H.
  destruct (load_rows tracks _) as [[e |] s2]; simpl in *; tauto.
Qed.

Lemma disk_run (a : action) (s s' : Player) :
  run a s = inr s' → (∀ path, a ≠ SavePlaylist path) → disk s' = disk s.
Proof.
  destruct a; simpl; intros Hrun Hns.
  - injection Hrun as <-. apply disk_add_files.
  - injection Hrun as <-. apply disk_add_files.
  - injection Hrun as <-. reflexivity.
  - apply kept_play_track in Hrun. destruct Hrun as (_ & _ & _ & _ & _ & Hd & _). exact Hd.
  - injection Hrun as <-. apply (kept_toggle_play s).
  - unfold next_track in Hrun. destruct (playlist s); [injection Hrun as <-; reflexivity |].
    set (s1 := if is_shuffled s then _ else _) in Hrun.
    assert (H1 : disk s1 = disk s) by (subst s1; destruct (is_shuffled s); reflexivity).
    clearbody s1. rewrite <- H1. destruct (_ && _).
    + injection Hrun as <-. apply (kept_toggle_play s1).
    + apply kept_play_track in Hrun. destruct Hrun as (_ & _ & _ & _ & _ & Hd & _). exact Hd.
  - unfold prev_track in Hrun. destruct (playlist s); [injection Hrun as <-; reflexivity |].
    set (s1 := if is_shuffled s then _ else _) in Hrun.
    assert (H1 : disk s1 = disk s) by (subst s1; destruct (is_shuffled s); reflexivity).
    clearbody s1. rewrite <- H1.
    apply kept_play_track in Hrun. destruct Hrun as (_ & _ & _ & _ & _ & Hd & _). exact Hd.
  - injection Hrun as <-. reflexivity.
  - injection Hrun as <-. reflexivity.
  - exfalso. exact (Hns file_path eq_refl).
  - injection Hrun as <-. apply disk_load_playlist.
  - injection Hrun as <-. reflexivity.
Qed.

(** *** The log *)

Lemma log_grows_refl (s : Player) : log_grows s s.
Proof. exists []. symmetry. apply app_nil_r. Qed.

Lemma log_grows_trans (s1 s2 s3 : Player) :
  log_grows s1 s2 → log_grows s2 s3 → log_grows s1 s3.
Proof.
  intros [m1 H1] [m2 H2]. exists (m1 ++ m2)%list.
  rewrite H2, H1, app_assoc. reflexivity.
Qed.

Lemma log_grows_same (s s' : Player) : errors_log s' = errors_log s → log_grows s s'.
Proof. intros H. exists []. rewrite H. symmetry. apply app_nil_r. Qed.

Lemma log_grows_line (e : log_entry) (s s' : Player) :
  errors_log s' = (errors_log s ++ [e])%list → log_grows s s'.
Proof. intros H. exists [e]. exact H. Qed.

Lemma log_grows_get_track_metadata file s : log_grows s (snd (get_track_metadata file s)).
Proof.
  destruct (get_track_metadata_shape file s) as [_ [-> | [e ->]]].
  - apply log_grows_refl.
  - apply (log_grows_line (MetadataErrorLog file e)). reflexivity.
Qed.

Lemma log_grows_update_album_art file s : log_grows s (update_album_art file s).
Proof.
  destruct (update_album_art_shape file s) as [art [-> | [e ->]]].
  - apply log_grows_same. reflexivity.
  - apply (log_grows_line (AlbumArtErrorLog file e)). reflexivity.
Qed.

Lemma log_grows_add_file on_error file s : log_grows s (add_file on_error file s).
Proof.
  unfold add_file. destruct (supported (file_ext file)); [| apply log_grows_same; reflexivity].
  pose proof (log_grows_get_track_metadata file (set_playlist (playlist s ++ [file]) s)) as Hm.
  destruct (get_track_metadata file _) as [name s2]. simpl in Hm.
  apply (log_grows_trans s (set_playlist (playlist s ++ [file]) s));
    [apply log_grows_same; reflexivity |].
  apply (log_grows_trans _ s2); [exact Hm |].
  destruct (total_length_of _ file s2) as [e | len].
  - apply (log_grows_line (on_error file e)). reflexivity.
  - apply (log_grows_trans _ (addItem (item_text name len) s2));
      [apply log_grows_same; reflexivity | apply log_grows_update_album_art].
Qed.

Lemma log_grows_add_files on_error files s :
  log_grows s (fold_left (fun s file => add_file on_error file s) files s).
Proof.
  revert s. induction files as [| file files IH]; intros s; simpl.
  - apply log_grows_refl.
  - apply (log_grows_trans _ (add_file on_error file s));
      [apply log_grows_add_file | apply IH].
Qed.

Lemma log_grows_load_rows tracks s : log_grows s (snd (load_rows tracks s)).
Proof.
  revert s. induction tracks as [| track rest IH]; intros s; simpl.
  - apply log_grows_refl.
  - pose proof (log_grows_get_track_metadata track s) as Hm.
    destruct (get_track_metadata track s) as [name s1]. simpl in Hm.
    destruct (total_length_of _ track s1) as [e | len]; simpl; [exact Hm |].
    apply (log_grows_trans _ s1); [exact Hm |].
    apply (log_grows_trans _ (addItem (item_text name len) s1));
      [apply log_grows_same; reflexivity | apply IH].
Qed.

Lemma log_grows_load_playlist file_path s : log_grows s (load_playlist file_path s).
Proof.
  unfold load_playlist.
  destruct (String.eqb file_path ""); [apply log_grows_refl |].
  destruct (json_load (disk s) file_path) as [e | tracks].
  - apply (log_grows_line (LoadPlaylistErrorLog e)). reflexivity.
  - pose proof (log_grows_load_rows tracks (clear_items (set_playlist tracks s))) as H.
    destruct (load_rows tracks _) as [[e |] s2]; simpl in H.
    + apply (log_grows_trans _ s2); [exact H |].
      apply (log_grows_line (LoadPlaylistErrorLog e)). reflexivity.
    + apply (log_grows_trans _ s2); [exact H | apply log_grows_same; reflexivity].
Qed.

Lemma log_grows_play_track s s' : play_track s = inr s' → log_grows s s'.
Proof.
  unfold play_track.
  destruct (playlist s) as [| t l]; [intros [= <-]; apply log_grows_refl |].
  destruct (Py.index (t :: l) (current_track_index s)) as [track |]; [| discriminate].
  set (s1 := if is_playing s then _ else s).
  assert (H1 : log_grows s s1)
    by (subst s1; destruct (is_playing s); apply log_grows_same; reflexivity).
  clearbody s1.
  destruct (mixer_load_error (disk s1) track) as [e |].
  - intros [= <-]. apply (log_grows_trans _ s1); [exact H1 |].
    apply (log_grows_line (PlaybackErrorLog track e)). reflexivity.
  - pose proof (log_grows_get_track_metadata track
                  (mixer_music Play (mixer_music (Load track) s1))) as Hm.
    destruct (get_track_metadata track _) as [name s3]. simpl in Hm.
    intros [= <-].
    apply (log_grows_trans _ s1); [exact H1 |].
    apply (log_grows_trans _ s3); [exact Hm |].
    apply (log_grows_trans _ (update_album_art track s3));
      [apply log_grows_update_album_art | apply log_grows_same; reflexivity].
Qed.

Lemma log_grows_run (a : action) (s s' : Player) : run a s = inr s' → log_grows s s'.
Proof.
  destruct a; simpl; intros Hrun.
  - injection Hrun as <-. apply log_grows_add_files.
  - injection Hrun as <-. apply log_grows_add_files.
  - injection Hrun as <-. apply log_grows_same. reflexivity.
  - apply log_grows_play_track in Hrun. exact Hrun.
  - injection Hrun as <-. unfold toggle_play.
    destruct (is_playing s); apply log_grows_same; reflexivity.
  - unfold next_track in Hrun. destruct (playlist s); [injection Hrun as <-; apply log_grows_refl |].
    set (s1 := if is_shuffled s then _ else _) in Hrun.
    assert (H1 : log_grows s s1)
      by (subst s1; destruct (is_shuffled s); apply log_grows_same; reflexivity).
    clearbody s1. apply (log_grows_trans _ s1); [exact H1 |]. destruct (_ && _).
    + injection Hrun as <-. unfold toggle_play.
      destruct (is_playing s1); apply log_grows_same; reflexivity.
    + exact (log_grows_play_track _ _ Hrun).
  - unfold prev_track in Hrun. destruct (playlist s); [injection Hrun as <-; apply log_grows_refl |].
    set (s1 := if is_shuffled s then _ else _) in Hrun.
    assert (H1 : log_grows s s1)
      by (subst s1; destruct (is_shuffled s); apply log_grows_same; reflexivity).
    clearbody s1. apply (log_grows_trans _ s1); [exact H1 |].
    exact (log_grows_play_track _ _ Hrun).
  - injection Hrun as <-. apply log_grows_same. reflexivity.
  - injection Hrun as <-. apply log_grows_same. reflexivity.
  - unfold save_playlist in Hrun. destruct (playlist s).
    + injection Hrun as <-. apply log_grows_same. reflexivity.
    + destruct (String.eqb file_path ""); [injection Hrun as <-; apply log_grows_refl |].
      destruct (json_dump _ file_path (disk s)); [discriminate |].
      injection Hrun as <-. apply log_grows_same. reflexivity.
  - injection Hrun as <-. apply log_grows_load_playlist.
  - injection Hrun as <-. apply log_grows_same. reflexivity.
Qed.

(** X5: the slots write to two places only.  Lines are added at the end
    of the log file [player_errors.log], none is removed or changed; and of
    the other files the only one that can differ after a slot is the one
    named in the save dialog, which then holds the playlist.  Nothing is
    deleted or made read-only.  (Saving the playlist under the name of the
    log file itself is set aside.) *)
Theorem slots_write_log_and_saved_file (a : action) (s s' : Player) :
  run a s = inr s' →
  (∀ path, a = SavePlaylist path → Py.basename path ≠ log_file_name) →
  log_grows s s'
  ∧ read_only (disk s') = read_only (disk s)
  ∧ ∀ path, files (disk s') !! path ≠ files (disk s) !! path →
            a = SavePlaylist path ∧ files (disk s') !! path = Some (Json (playlist s)).
Proof.
  intros Hrun _. split; [exact (log_grows_run a s s' Hrun) |].
  assert (Hcase : (∃ p, a = SavePlaylist p) ∨ (∀ p, a ≠ SavePlaylist p))
    by (destruct a; eauto; right; discriminate).
  destruct Hcase as [[p ->] | Hns].
  - simpl in Hrun. unfold save_playlist, json_dump in Hrun.
    destruct (playlist s) as [| t l] eqn:Hl.
    { injection Hrun as <-. split; [reflexivity | intros path H; contradiction]. }
    destruct (String.eqb p "").
    { injection Hrun as <-. split; [reflexivity | intros path H; contradiction]. }
    destruct (decide (p ∈ read_only (disk s))); [discriminate |].
    injection Hrun as <-. simpl. split; [reflexivity |].
    intros path Hdiff. destruct (decide (p = path)) as [-> | Hne].
    + split; [reflexivity | apply lookup_insert_eq].
    + rewrite lookup_insert_ne in Hdiff by exact Hne. contradiction.
  - rewrite (disk_run a s s' Hrun Hns).
    split; [reflexivity | intros path H; contradiction].
Qed.

Lemma slots_write_log_and_saved_file_witness :
  log_grows two_tracks saved_two
  ∧ read_only (disk saved_two) = read_only (disk two_tracks)
  ∧ ∀ path, files (disk saved_two) !! path ≠ files (disk two_tracks) !! path →
            SavePlaylist "/m/list.json" = SavePlaylist path
            ∧ files (disk saved_two) !! path = Some (Json (playlist two_tracks)).
Proof.
  apply (slots_write_log_and_saved_file (SavePlaylist "/m/list.json") two_tracks saved_two).
  - vm_compute. reflexivity.
  - intros path [= <-]. vm_compute. discriminate.
Defined.

(** *** The dialog and the drop *)

Lemma add_file_apart_from_log on1 on2 (file : string) (s1 s2 : Player) :
  set_errors_log [] s1 = set_errors_log [] s2 →
  length (errors_log s1) = length (errors_log s2) →
  set_errors_log [] (add_file on1 file s1) = set_errors_log [] (add_file on2 file s2)
  ∧ length (errors_log (add_file on1 file s1)) = length (errors_log (add_file on2 file s2)).
Proof.
  destruct s1 as [pl1 i1 p1 sh1 r1 x1 u1 m1 d1 l1], s2 as [pl2 i2 p2 sh2 r2 x2 u2 m2 d2 l2].
  unfold set_errors_log. simpl. intros [= -> -> -> -> -> -> -> -> ->] Hlen.
  unfold add_file, get_track_metadata, title_or_basename, EasyID3, FLAC, OggVorbis,
    total_length_of, update_album_art.
  simpl.
  repeat (case_match; simpl in *; simplify_eq);
    rewrite ?length_app; simpl; split; (reflexivity || lia).
Qed.

Lemma add_files_apart_from_log on1 on2 (files : list string) (s1 s2 : Player) :
  set_errors_log [] s1 = set_errors_log [] s2 →
  length (errors_log s1) = length (errors_log s2) →
  set_errors_log [] (fold_left (fun s file => add_file on1 file s) files s1)
  = set_errors_log [] (fold_left (fun s file => add_file on2 file s) files s2)
  ∧ length (errors_log (fold_left (fun s file => add_file on1 file s) files s1))
    = length (errors_log (fold_left (fun s file => add_file on2 file s) files s2)).
Proof.
  revert s1 s2. induction files as [| file files IH]; intros s1 s2 Hs Hl; simpl.
  - split; assumption.
  - destruct (add_file_apart_from_log on1 on2 file s1 s2 Hs Hl) as [Hs' Hl'].
    apply IH; assumption.
Qed.

(** X6: dropping files on the window does what selecting the same files in
    the add-tracks dialog does: the two slots leave the same playlist,
    index, flags, widgets, message boxes, mixer and disk, and log as many
    lines; only the wording of the log lines differs. *)
Theorem drop_is_add (files : list string) (s : Player) :
  playlist (dropEvent files s) = playlist (add_tracks files s)
  ∧ current_track_index (dropEvent files s) = current_track_index (add_tracks files s)
  ∧ controls (dropEvent files s) = controls (add_tracks files s)
  ∧ ui (dropEvent files s) = ui (add_tracks files s)
  ∧ mixer (dropEvent files s) = mixer (add_tracks files s)
  ∧ disk (dropEvent files s) = disk (add_tracks files s)
  ∧ length (errors_log (dropEvent files s)) = length (errors_log (add_tracks files s)).
Proof.
  destruct (add_files_apart_from_log DropErrorLog AddTrackErrorLog files s s eq_refl eq_refl)
    as [Heq Hlen].
  unfold dropEvent, add_tracks.
  split; [exact (f_equal playlist Heq) |].
  split; [exact (f_equal current_track_index Heq) |].
  split; [exact (f_equal controls Heq) |].
  split; [exact (f_equal ui Heq) |].
  split; [exact (f_equal mixer Heq) |].
  split; [exact (f_equal disk Heq) | exact Hlen].
Qed.

(** *** Rows and tracks *)

Lemma add_file_rows on_error (file : string) (s : Player) :
  playlist_widget (ui (add_file on_error file s))
  = (playlist_widget (ui s) ++ option_list (added_row (disk s) file))%list.
Proof.
  unfold add_file, added_row, row_text.
  destruct (supported (file_ext file)); [| simpl; symmetry; apply app_nil_r].
  destruct (get_track_metadata_shape file (set_playlist (playlist s ++ [file]) s))
    as [Hname Hshape].
  destruct (get_track_metadata file _) as [name s2]. simpl in Hname, Hshape.
  assert (Hs2 : disk s2 = disk s ∧ playlist_widget (ui s2) = playlist_widget (ui s))
    by (destruct Hshape as [-> | [e ->]]; split; reflexivity).
  destruct Hs2 as [Hd Hw].
  rewrite (total_length_of_disk _ file s2), Hd.
  destruct (total_length_of _ file (init (disk s))) as [e | len]; simpl.
  - rewrite Hw. symmetry. apply app_nil_r.
  - destruct (kept_update_album_art file (addItem (item_text name len) s2))
      as (_ & _ & _ & _ & _ & _ & Hw').
    rewrite Hw'. simpl. rewrite Hw, Hname. reflexivity.
Qed.

Lemma add_files_rows on_error (files : list string) (s : Player) :
  playlist_widget (ui (fold_left (fun s file => add_file on_error file s) files s))
  = (playlist_widget (ui s) ++ omap (added_row (disk s)) files)%list.
Proof.
  revert s. induction files as [| file files IH]; intros s; simpl.
  - symmetry. apply app_nil_r.
  - rewrite IH, add_file_rows, disk_add_file, <- app_assoc. f_equal.
    destruct (added_row (disk s) file); reflexivity.
Qed.

(** X7: [add_tracks] appends to the playlist the supported files of the
    selection, in order and with repetitions, and appends to the list widget
    one row for each of them whose length could be read: a supported .mp3
    that [MP3] cannot read enters the playlist without a row. *)
Theorem add_tracks_playlist_and_rows (files : list string) (s : Player) :
  playlist (add_tracks files s)
  = (playlist s ++ filter (fun f => supported (file_ext f) = true) files)%list
  ∧ playlist_widget (ui (add_tracks files s))
    = (playlist_widget (ui s) ++ omap (added_row (disk s)) files)%list
  ∧ ∀ file, supported (file_ext file) = true →
            (added_row (disk s) file = None
             ↔ file_ext file = ".mp3" ∧ ∃ e, MP3 (disk s) file = inl e).
Proof.
  split; [apply add_files_playlist |]. split; [apply add_files_rows |].
  intros file Hsup. unfold added_row, row_text, total_length_of. rewrite Hsup. simpl.
  destruct (String.eqb_spec (file_ext file) ".mp3") as [Hext | Hext].
  - destruct (MP3 (disk s) file) as [e | audio].
    + split; [intros _; split; [exact Hext | eauto] | reflexivity].
    + split; [discriminate | intros [_ [e He]]; discriminate].
  - split; [discriminate | intros [H _]; contradiction].
Qed.

(** X8: a file with the extension .mp3 that [MP3] cannot read, added on its
    own, is appended to the playlist all the same; it gets no row, the File
    Error box is shown and the last log line is its add-track error. *)
Theorem add_unreadable_mp3 (file : string) (e : exn) (s : Player) :
  file_ext file = ".mp3" → MP3 (disk s) file = inl e →
  playlist (add_tracks [file] s) = (playlist s ++ [file])%list
  ∧ playlist_widget (ui (add_tracks [file] s)) = playlist_widget (ui s)
  ∧ dialogs (ui (add_tracks [file] s))
    = (dialogs (ui s) ++ [FileError (Py.basename file) e])%list
  ∧ last (errors_log (add_tracks [file] s)) = Some (AddTrackErrorLog file e)
  ∧ current_track_index (add_tracks [file] s) = current_track_index s.
Proof.
  intros Hext Hmp3. unfold add_tracks. simpl. unfold add_file.
  rewrite Hext. simpl.
  destruct (get_track_metadata_shape file (set_playlist (playlist s ++ [file]) s))
    as [_ Hshape].
  destruct (get_track_metadata file _) as [name s2]. simpl in Hshape.
  unfold total_length_of.
  assert (Hd : disk s2 = disk s) by (destruct Hshape as [-> | [e' ->]]; reflexivity).
  rewrite Hd, Hmp3.
  destruct Hshape as [-> | [e' ->]]; simpl; rewrite last_snoc; repeat split.
Qed.

Lemma add_unreadable_mp3_witness :
  playlist (add_tracks ["/m/bad.mp3"] (init disk_with_broken))
  = (playlist (init disk_with_broken) ++ ["/m/bad.mp3"])%list
  ∧ playlist_widget (ui (add_tracks ["/m/bad.mp3"] (init disk_with_broken)))
    = playlist_widget (ui (init disk_with_broken))
  ∧ dialogs (ui (add_tracks ["/m/bad.mp3"] (init disk_with_broken)))
    = (dialogs (ui (init disk_with_broken))
       ++ [FileError (Py.basename "/m/bad.mp3") MutagenError])%list
  ∧ last (errors_log (add_tracks ["/m/bad.mp3"] (init disk_with_broken)))
    = Some (AddTrackErrorLog "/m/bad.mp3" MutagenError)
  ∧ current_track_index (add_tracks ["/m/bad.mp3"] (init disk_with_broken))
    = current_track_index (init disk_with_broken).
Proof.
  apply (add_unreadable_mp3 "/m/bad.mp3" MutagenError (init disk_with_broken)).
  - vm_compute. reflexivity.
  - vm_compute. reflexivity.
Defined.

Lemma add_tracks_playlist_and_rows_witness :
  playlist (add_tracks ["/m/a.mp3"; "/m/bad.mp3"] (init disk_with_broken))
  = (playlist (init disk_with_broken)
     ++ filter (fun f => supported (file_ext f) = true) ["/m/a.mp3"; "/m/bad.mp3"])%list
  ∧ playlist_widget (ui (add_tracks ["/m/a.mp3"; "/m/bad.mp3"] (init disk_with_broken)))
    = (playlist_widget (ui (init disk_with_broken))
       ++ omap (added_row (disk (init disk_with_broken))) ["/m/a.mp3"; "/m/bad.mp3"])%list
  ∧ ∀ file, supported (file_ext file) = true →
            (added_row (disk (init disk_with_broken)) file = None
             ↔ file_ext file = ".mp3"
               ∧ ∃ e, MP3 (disk (init disk_with_broken)) file = inl e).
Proof.
  apply (add_tracks_playlist_and_rows ["/m/a.mp3"; "/m/bad.mp3"] (init disk_with_broken)).
Defined.

(** *** Loading *)

Lemma rows_until_error_all (rows : list (option string)) :
  (∀ r, r ∈ rows → is_Some r) → length (rows_until_error rows) = length rows.
Proof.
  induction rows as [| r rows IH]; intros Hall; [reflexivity |].
  destruct (Hall r) as [x ->]; [apply elem_of_cons; left; reflexivity |].
  simpl. f_equal. apply IH. intros r' Hr'. apply Hall, elem_of_cons. right. exact Hr'.
Qed.

Lemma rows_until_error_some (rows : list (option string)) :
  None ∈ rows → (length (rows_until_error rows) < length rows)%nat.
Proof.
  induction rows as [| r rows IH]; intros Hin; [inversion Hin |].
  destruct r as [x |]; simpl; [| lia].
  apply elem_of_cons in Hin. destruct Hin as [Hin | Hin]; [discriminate |].
  specialize (IH Hin). lia.
Qed.

Lemma load_rows_rows (tracks : list string) (s : Player) :
  playlist_widget (ui (snd (load_rows tracks s)))
  = (playlist_widget (ui s) ++ rows_until_error (map (loaded_row (disk s)) tracks))%list
  ∧ (fst (load_rows tracks s) = None
     ↔ ∀ r, r ∈ map (loaded_row (disk s)) tracks → is_Some r).
Proof.
  revert s. induction tracks as [| track rest IH]; intros s; simpl.
  - split; [symmetry; apply app_nil_r |].
    split; [intros _ r Hr; inversion Hr | reflexivity].
  - destruct (get_track_metadata_shape track s) as [Hname Hshape].
    destruct (get_track_metadata track s) as [name s1]. simpl in Hname, Hshape.
    assert (Hs1 : disk s1 = disk s ∧ playlist_widget (ui s1) = playlist_widget (ui s))
      by (destruct Hshape as [-> | [e ->]]; split; reflexivity).
    destruct Hs1 as [Hd Hw].
    unfold loaded_row at 1 3, row_text.
    rewrite (total_length_of_disk _ track s1), Hd.
    destruct (total_length_of _ track (init (disk s))) as [e | len]; simpl.
    + split; [rewrite Hw; symmetry; apply app_nil_r |].
      split; [discriminate |].
      intros Hall. destruct (Hall None) as [x Hx]; [| discriminate].
      apply elem_of_cons. left. reflexivity.
    + destruct (IH (addItem (item_text name len) s1)) as [IHrows IHnone].
      simpl in IHrows, IHnone. rewrite Hd in IHrows, IHnone.
      split.
      * rewrite IHrows, Hw, Hname, <- app_assoc. reflexivity.
      * rewrite IHnone. split.
        -- intros Hall r Hr. apply elem_of_cons in Hr.
           destruct Hr as [-> | Hr]; [eauto | apply Hall, Hr].
        -- intros Hall r Hr. apply Hall, elem_of_cons. right. exact Hr.
Qed.

(** X9: [load_playlist] on a readable playlist file replaces the playlist by
    the list in the file, whatever the extensions, and rebuilds the rows
    from nothing, one per track, up to the first .mp3 entry that [MP3]
    cannot read.  When every entry can be read the load ends with the
    success box and there are as many rows as tracks; otherwise it ends with
    the Load Error box and there are fewer rows than tracks. *)
Theorem load_playlist_rows (file_path : string) (tracks : list string) (s : Player) :
  file_path ≠ "" → json_load (disk s) file_path = inr tracks →
  playlist (load_playlist file_path s) = tracks
  ∧ playlist_widget (ui (load_playlist file_path s))
    = rows_until_error (map (loaded_row (disk s)) tracks)
  ∧ ((∀ r, r ∈ map (loaded_row (disk s)) tracks → is_Some r) →
     dialogs (ui (load_playlist file_path s)) = (dialogs (ui s) ++ [LoadSuccess])%list
     ∧ length (playlist_widget (ui (load_playlist file_path s)))
       = length (playlist (load_playlist file_path s)))
  ∧ (None ∈ map (loaded_row (disk s)) tracks →
     (∃ e, dialogs (ui (load_playlist file_path s)) = (dialogs (ui s) ++ [LoadError e])%list)
     ∧ (length (playlist_widget (ui (load_playlist file_path s)))
        < length (playlist (load_playlist file_path s)))%nat).
Proof.
  intros Hpath Hload.
  destruct (load_playlist_effect file_path tracks s Hpath Hload) as (Hpl & _ & _).
  split; [exact Hpl |]. rewrite Hpl. clear Hpl.
  unfold load_playlist.
  rewrite (proj2 (String.eqb_neq file_path "") Hpath), Hload.
  destruct (load_rows_rows tracks (clear_items (set_playlist tracks s))) as [Hrows Hnone].
  destruct (load_rows_effect tracks (clear_items (set_playlist tracks s)))
    as (_ & _ & _ & Hdlg & _).
  simpl in Hrows, Hnone, Hdlg.
  destruct (load_rows tracks _) as [[e |] s2]; simpl in *.
  - split; [exact Hrows |]. split.
    + intros Hall. apply Hnone in Hall. discriminate.
    + intros Hin. split; [exists e; rewrite Hdlg; reflexivity |].
      rewrite Hrows. pose proof (rows_until_error_some _ Hin) as Hlt.
      rewrite length_map in Hlt. exact Hlt.
  - split; [exact Hrows |]. split.
    + intros Hall. split; [rewrite Hdlg; reflexivity |].
      rewrite Hrows, (rows_until_error_all _ Hall). apply length_map.
    + intros Hin. destruct (proj1 Hnone eq_refl None Hin) as [x Hx]. discriminate.
Qed.

Lemma load_playlist_rows_witness :
  playlist (load_playlist "/m/list.json" saved_then_stale) = ["/m/a.mp3"; "/m/b.flac"]
  ∧ playlist_widget (ui (load_playlist "/m/list.json" saved_then_stale))
    = rows_until_error (map (loaded_row (disk saved_then_stale)) ["/m/a.mp3"; "/m/b.flac"])
  ∧ ((∀ r, r ∈ map (loaded_row (disk saved_then_stale)) ["/m/a.mp3"; "/m/b.flac"] →
           is_Some r) →
     dialogs (ui (load_playlist "/m/list.json" saved_then_stale))
     = (dialogs (ui saved_then_stale) ++ [LoadSuccess])%list
     ∧ length (playlist_widget (ui (load_playlist "/m/list.json" saved_then_stale)))
       = length (playlist (load_playlist "/m/list.json" saved_then_stale)))
  ∧ (None ∈ map (loaded_row (disk saved_then_stale)) ["/m/a.mp3"; "/m/b.flac"] →
     (∃ e, dialogs (ui (load_playlist "/m/list.json" saved_then_stale))
           = (dialogs (ui saved_then_stale) ++ [LoadError e])%list)
     ∧ (length (playlist_widget (ui (load_playlist "/m/list.json" saved_then_stale)))
        < length (playlist (load_playlist "/m/list.json" saved_then_stale)))%nat).
Proof.
  apply (load_playlist_rows "/m/list.json" ["/m/a.mp3"; "/m/b.flac"] saved_then_stale).
  - discriminate.
  - vm_compute. reflexivity.
Defined.

(** X10: when the open dialog is cancelled, or the chosen path holds no
    JSON playlist (no file there, or a file [json.load] rejects), the
    playlist, the rows, the index, the flags, the mixer and the disk are
    left as they were; in the second case the Load Error box is shown and
    the error is logged. *)
Theorem load_playlist_nothing_read (file_path : string) (s : Player) :
  (file_path = "" ∨ ∀ tracks, files (disk s) !! file_path ≠ Some (Json tracks)) →
  playlist (load_playlist file_path s) = playlist s
  ∧ playlist_widget (ui (load_playlist file_path s)) = playlist_widget (ui s)
  ∧ current_track_index (load_playlist file_path s) = current_track_index s
  ∧ controls (load_playlist file_path s) = controls s
  ∧ mixer (load_playlist file_path s) = mixer s
  ∧ disk (load_playlist file_path s) = disk s
  ∧ (file_path = "" → load_playlist file_path s = s)
  ∧ (file_path ≠ "" →
     ∃ e, dialogs (ui (load_playlist file_path s)) = (dialogs (ui s) ++ [LoadError e])%list
          ∧ errors_log (load_playlist file_path s)
            = (errors_log s ++ [LoadPlaylistErrorLog e])%list).
Proof.
  intros Hcase. unfold load_playlist.
  destruct (String.eqb_spec file_path "") as [Hempty | Hpath].
  - repeat split; try reflexivity. intros H. contradiction.
  - destruct Hcase as [Hempty | Hnone]; [contradiction |].
    unfold json_load.
    destruct (files (disk s) !! file_path) as [[a | tracks |] |] eqn:Hf;
      try (exfalso; exact (Hnone tracks eq_refl));
      (repeat split; try reflexivity; [intros H; contradiction | intros _; eauto]).
Qed.

Lemma load_playlist_nothing_read_witness :
  playlist (load_playlist "/m/none.json" two_tracks) = playlist two_tracks
  ∧ playlist_widget (ui (load_playlist "/m/none.json" two_tracks))
    = playlist_widget (ui two_tracks)
  ∧ current_track_index (load_playlist "/m/none.json" two_tracks)
    = current_track_index two_tracks
  ∧ controls (load_playlist "/m/none.json" two_tracks) = controls two_tracks
  ∧ mixer (load_playlist "/m/none.json" two_tracks) = mixer two_tracks
  ∧ disk (load_playlist "/m/none.json" two_tracks) = disk two_tracks
  ∧ ("/m/none.json" = "" → load_playlist "/m/none.json" two_tracks = two_tracks)
  ∧ ("/m/none.json" ≠ "" →
     ∃ e, dialogs (ui (load_playlist "/m/none.json" two_tracks))
          = (dialogs (ui two_tracks) ++ [LoadError e])%list
          ∧ errors_log (load_playlist "/m/none.json" two_tracks)
            = (errors_log two_tracks ++ [LoadPlaylistErrorLog e])%list).
Proof.
  apply (load_playlist_nothing_read "/m/none.json" two_tracks).
  right. intros tracks. vm_compute. discriminate.
Defined.

(** *** Next and previous, composed *)

Lemma next_track_at_index (rnd : Z) (s : Player) :
  playlist s ≠ [] →
  ∃ s', next_track rnd s = inr s' ∧ kept (set_current_track_index (next_index rnd s) s) s'.
Proof. exact (next_track_returns rnd s). Qed.

Lemma prev_track_at_index (rnd : Z) (s : Player) :
  playlist s ≠ [] →
  ∃ s', prev_track rnd s = inr s' ∧ kept (set_current_track_index (prev_index rnd s) s) s'.
Proof. exact (prev_track_returns rnd s). Qed.

(** X11: with shuffle off on a playlist with tracks, [prev_track] undoes
    [next_track] and [next_track] undoes [prev_track] on the current index:
    both orders return and end at the index they started from, reduced
    modulo the length (so at that very index when it was within bounds). *)
Theorem next_prev_round_trip (rnd1 rnd2 : Z) (s : Player) :
  playlist s ≠ [] → is_shuffled s = false →
  (∃ s1 s2, next_track rnd1 s = inr s1 ∧ prev_track rnd2 s1 = inr s2
            ∧ current_track_index s2 = current_track_index s mod playlist_len s
            ∧ playlist s2 = playlist s)
  ∧ (∃ s1 s2, prev_track rnd1 s = inr s1 ∧ next_track rnd2 s1 = inr s2
              ∧ current_track_index s2 = current_track_index s mod playlist_len s
              ∧ playlist s2 = playlist s)
  ∧ (0 <= current_track_index s < playlist_len s →
     current_track_index s mod playlist_len s = current_track_index s).
Proof.
  intros Hne Hsh. pose proof (playlist_len_pos s Hne) as Hpos.
  split; [| split].
  - destruct (next_track_at_index rnd1 s Hne) as (s1 & H1 & Hk1).
    destruct Hk1 as (Hpl1 & Hi1 & Hsh1 & _). simpl in Hpl1, Hi1, Hsh1.
    assert (Hne1 : playlist s1 ≠ []) by (rewrite Hpl1; exact Hne).
    destruct (prev_track_at_index rnd2 s1 Hne1) as (s2 & H2 & Hk2).
    destruct Hk2 as (Hpl2 & Hi2 & _). simpl in Hpl2, Hi2.
    exists s1, s2. split; [exact H1 |]. split; [exact H2 |].
    split; [| congruence].
    rewrite Hi2. unfold prev_index, next_index in *. rewrite Hsh1, Hsh, Hi1.
    unfold playlist_len. rewrite Hpl1. fold (playlist_len s). rewrite Hsh.
    rewrite Zminus_mod_idemp_l. f_equal. lia.
  - destruct (prev_track_at_index rnd1 s Hne) as (s1 & H1 & Hk1).
    destruct Hk1 as (Hpl1 & Hi1 & Hsh1 & _). simpl in Hpl1, Hi1, Hsh1.
    assert (Hne1 : playlist s1 ≠ []) by (rewrite Hpl1; exact Hne).
    destruct (next_track_at_index rnd2 s1 Hne1) as (s2 & H2 & Hk2).
    destruct Hk2 as (Hpl2 & Hi2 & _). simpl in Hpl2, Hi2.
    exists s1, s2. split; [exact H1 |]. split; [exact H2 |].
    split; [| congruence].
    rewrite Hi2. unfold prev_index, next_index in *. rewrite Hsh1, Hsh, Hi1.
    unfold playlist_len. rewrite Hpl1. fold (playlist_len s). rewrite Hsh.
    rewrite Zplus_mod_idemp_l. f_equal. lia.
  - intros Hin. apply Z.mod_small. exact Hin.
Qed.

Lemma next_prev_round_trip_witness :
  (∃ s1 s2, next_track 0 playing_last = inr s1 ∧ prev_track 0 s1 = inr s2
            ∧ current_track_index s2
              = current_track_index playing_last mod playlist_len playing_last
            ∧ playlist s2 = playlist playing_last)
  ∧ (∃ s1 s2, prev_track 0 playing_last = inr s1 ∧ next_track 0 s1 = inr s2
              ∧ current_track_index s2
                = current_track_index playing_last mod playlist_len playing_last
              ∧ playlist s2 = playlist playing_last)
  ∧ (0 <= current_track_index playing_last < playlist_len playing_last →
     current_track_index playing_last mod playlist_len playing_last
     = current_track_index playing_last).
Proof.
  apply (next_prev_round_trip 0 0 playing_last).
  - vm_compute. discriminate.
  - reflexivity.
Defined.

Lemma play_track_plays (s : Player) (track : string) :
  current_track s = Some track → mixer_load_error (disk s) track = None →
  ∃ s', play_track s = inr s'
        ∧ is_playing s' = true
        ∧ calls (mixer s') = (calls (mixer s) ++ fadeout_calls s ++ [Load track; Play])%list
        ∧ kept s s'.
Proof.
  intros Hcur Herr. destruct (current_track_playlist s track Hcur) as [Hne _].
  destruct (play_track_returns s) as [s' Hrun]; [right; rewrite Hcur; eauto |].
  exists s'. split; [exact Hrun |].
  pose proof (kept_play_track s s' Hrun) as Hk.
  revert Hrun. unfold play_track. unfold current_track in Hcur.
  destruct (playlist s) as [| t l] eqn:Hl; [congruence |].
  rewrite Hcur.
  replace (disk (if is_playing s then _ else s)) with (disk s)
    by (destruct (is_playing s); reflexivity).
  rewrite Herr.
  set (s2 := mixer_music Play _).
  assert (Hcalls : calls (mixer s2)
                   = (calls (mixer s) ++ fadeout_calls s ++ [Load track; Play])%list).
  { subst s2. unfold fadeout_calls.
    destruct (is_playing s); simpl; rewrite <- !app_assoc; reflexivity. }
  clearbody s2.
  destruct (get_track_metadata_shape track s2) as [_ Hshape].
  destruct (get_track_metadata track s2) as [name s3]. simpl in Hshape.
  destruct (update_album_art_shape track s3) as [art Hart].
  intros [= <-].
  split; [reflexivity |]. split; [| exact Hk].
  destruct Hshape as [Hs3 | [e Hs3]]; destruct Hart as [Ha | [e' Ha]];
    rewrite Ha, Hs3; simpl; exact Hcalls.
Qed.

(** X12: [next_track] plays the track at the index it selects, provided the
    mixer loads it, whenever repeat is on, or the selected index is not 0,
    or music is playing: the index is set, the playing flag is set, and the
    mixer is asked to fade out (if flagged playing), load that track and
    play.  In particular with repeat on it goes from the last track to the
    first and plays it. *)
Theorem next_track_plays (rnd : Z) (s : Player) (track : string) :
  playlist s ≠ [] →
  is_repeated s = true ∨ next_index rnd s ≠ 0 ∨ music_pos (mixer s) ≠ -1 →
  Py.index (playlist s) (next_index rnd s) = Some track →
  mixer_load_error (disk s) track = None →
  ∃ s', next_track rnd s = inr s'
        ∧ current_track_index s' = next_index rnd s
        ∧ is_playing s' = true
        ∧ calls (mixer s') = (calls (mixer s) ++ fadeout_calls s ++ [Load track; Play])%list.
Proof.
  intros Hne Hguard Htrack Hload.
  destruct (play_track_plays (set_current_track_index (next_index rnd s) s) track Htrack Hload)
    as (s' & Hrun & Hp & Hcalls & Hk).
  exists s'. destruct Hk as (_ & Hi & _). simpl in Hi.
  split; [| split; [exact Hi | split; [exact Hp | exact Hcalls]]].
  unfold next_track. destruct (playlist s) as [| t l] eqn:Hl; [congruence |].
  replace (if is_shuffled s then set_current_track_index _ s else _)
    with (set_current_track_index (next_index rnd s) s)
    by (unfold next_index; destruct (is_shuffled s); reflexivity).
  simpl.
  assert (Hcond : negb (is_repeated s) && (next_index rnd s =? 0)
                  && (music_pos (mixer s) =? -1) = false).
  { destruct Hguard as [Hr | [Hi0 | Hpos]].
    - rewrite Hr. reflexivity.
    - apply Z.eqb_neq in Hi0. rewrite Hi0. apply andb_false_iff. left.
      apply andb_false_r.
    - apply Z.eqb_neq in Hpos. rewrite Hpos. apply andb_false_r. }
  rewrite Hcond. exact Hrun.
Qed.

Lemma next_track_plays_witness :
  ∃ s', next_track 0 (toggle_repeat (track_ends playing_last)) = inr s'
        ∧ current_track_index s' = next_index 0 (toggle_repeat (track_ends playing_last))
        ∧ is_playing s' = true
        ∧ calls (mixer s')
          = (calls (mixer (toggle_repeat (track_ends playing_last)))
             ++ fadeout_calls (toggle_repeat (track_ends playing_last))
             ++ [Load "/m/a.mp3"; Play])%list.
Proof.
  apply (next_track_plays 0 (toggle_repeat (track_ends playing_last)) "/m/a.mp3").
  - vm_compute. discriminate.
  - left. reflexivity.
  - vm_compute. reflexivity.
  - vm_compute. reflexivity.
Defined.

(** X13: [prev_track] has no stop guard: on a playlist with tracks it
    always plays the track at the index it selects, provided the mixer
    loads it; with shuffle off at index 0 that is the last track. *)
Theorem prev_track_plays (rnd : Z) (s : Player) (track : string) :
  playlist s ≠ [] →
  Py.index (playlist s) (prev_index rnd s) = Some track →
  mixer_load_error (disk s) track = None →
  ∃ s', prev_track rnd s = inr s'
        ∧ current_track_index s' = prev_index rnd s
        ∧ is_playing s' = true
        ∧ calls (mixer s') = (calls (mixer s) ++ fadeout_calls s ++ [Load track; Play])%list
        ∧ (is_shuffled s = false → current_track_index s = 0 →
           current_track_index s' = playlist_len s - 1).
Proof.
  intros Hne Htrack Hload. pose proof (playlist_len_pos s Hne) as Hpos.
  destruct (play_track_plays (set_current_track_index (prev_index rnd s) s) track Htrack Hload)
    as (s' & Hrun & Hp & Hcalls & Hk).
  exists s'. destruct Hk as (_ & Hi & _). simpl in Hi.
  split; [| split; [exact Hi | split; [exact Hp | split; [exact Hcalls |]]]].
  - unfold prev_track. destruct (playlist s) as [| t l] eqn:Hl; [congruence |].
    replace (if is_shuffled s then set_current_track_index _ s else _)
      with (set_current_track_index (prev_index rnd s) s)
      by (unfold prev_index; destruct (is_shuffled s); reflexivity).
    exact Hrun.
  - intros Hsh H0. rewrite Hi. unfold prev_index. rewrite Hsh, H0.
    replace (0 - 1) with (-1 * playlist_len s + (playlist_len s - 1)) by lia.
    rewrite Z.add_comm, Z.mod_add by lia. apply Z.mod_small. lia.
Qed.

Lemma prev_track_plays_witness :
  ∃ s', prev_track 0 two_tracks = inr s'
        ∧ current_track_index s' = prev_index 0 two_tracks
        ∧ is_playing s' = true
        ∧ calls (mixer s')
          = (calls (mixer two_tracks) ++ fadeout_calls two_tracks
             ++ [Load "/m/b.flac"; Play])%list
        ∧ (is_shuffled two_tracks = false → current_track_index two_tracks = 0 →
           current_track_index s' = playlist_len two_tracks - 1).
Proof.
  apply (prev_track_plays 0 two_tracks "/m/b.flac").
  - vm_compute. discriminate.
  - vm_compute. reflexivity.
  - vm_compute. reflexivity.
Defined.

(** X14: on a playlist of one track with repeat off, while the mixer
    reports no music playing (position -1: never started, or played to its
    end), [next_track] does not play the track, whatever the shuffle flag:
    it keeps index 0, flips the playing flag and only pauses or unpauses the
    mixer.  After the pause the position is still -1; after the unpause, on
    a mixer that has played before, the clock is armed again and the
    position is no longer -1. *)
Theorem next_track_single_ended (rnd : Z) (s : Player) (track : string) :
  playlist s = [track] → is_repeated s = false → music_pos (mixer s) = -1 →
  ∃ s', next_track rnd s = inr s'
        ∧ current_track_index s' = 0
        ∧ is_playing s' = negb (is_playing s)
        ∧ calls (mixer s') = (calls (mixer s) ++ [if is_playing s then Pause else Unpause])%list
        ∧ playlist s' = [track] ∧ is_repeated s' = false
        ∧ (is_playing s = true → music_pos (mixer s') = -1)
        ∧ (is_playing s = false → Play ∈ calls (mixer s) → music_pos (mixer s') ≠ -1).
Proof.
  intros Hpl Hrep Hpos.
  assert (Hlen : playlist_len s = 1) by (unfold playlist_len; rewrite Hpl; reflexivity).
  assert (Hi : (if is_shuffled s
                then set_current_track_index (Py.randint 0 (playlist_len s - 1) rnd) s
                else set_current_track_index
                       ((current_track_index s + 1) mod playlist_len s) s)
               = set_current_track_index 0 s).
  { rewrite Hlen. destruct (is_shuffled s); f_equal.
    - unfold Py.randint. simpl. apply Z.mod_1_r.
    - apply Z.mod_1_r. }
  unfold next_track. rewrite Hpl, Hi. simpl. rewrite Hrep, Hpos. simpl.
  eexists. split; [reflexivity |].
  unfold toggle_play. simpl.
  destruct (is_playing s); simpl; rewrite Hpl, Hrep, Hpos;
    repeat split; try discriminate; intros _ _; discriminate.
Qed.

Lemma next_track_single_ended_witness :
  ∃ s', next_track 0 single_ended = inr s'
        ∧ current_track_index s' = 0
        ∧ is_playing s' = negb (is_playing single_ended)
        ∧ calls (mixer s')
          = (calls (mixer single_ended)
             ++ [if is_playing single_ended then Pause else Unpause])%list
        ∧ playlist s' = ["/m/a.mp3"] ∧ is_repeated s' = false
        ∧ (is_playing single_ended = true → music_pos (mixer s') = -1)
        ∧ (is_playing single_ended = false → Play ∈ calls (mixer single_ended) →
           music_pos (mixer s') ≠ -1).
Proof.
  apply (next_track_single_ended 0 single_ended "/m/a.mp3").
  - vm_compute. reflexivity.
  - reflexivity.
  - reflexivity.
Defined.

(** X15: [toggle_play] only pauses or unpauses: it never loads or plays a
    track.  Applied twice it gives back the playing flag and, when buttons
    and timers agreed with the flags, every widget; the mixer has been asked
    to pause then unpause, or the reverse. *)
Theorem toggle_play_twice (s : Player) :
  is_playing (toggle_play s) = negb (is_playing s)
  ∧ calls (mixer (toggle_play s))
    = (calls (mixer s) ++ [if is_playing s then Pause else Unpause])%list
  ∧ is_playing (toggle_play (toggle_play s)) = is_playing s
  ∧ calls (mixer (toggle_play (toggle_play s)))
    = (calls (mixer s)
       ++ (if is_playing s then [Pause; Unpause] else [Unpause; Pause]))%list
  ∧ kept s (toggle_play (toggle_play s))
  ∧ (controls_agree s → ui (toggle_play (toggle_play s)) = ui s).
Proof.
  unfold toggle_play, controls_agree.
  destruct s as [pl i p sh r x u m d l]. destruct u as [w art pb sb rb t1 t2 t3 dl].
  destruct p; simpl; rewrite <- ?app_assoc; simpl;
    (repeat match goal with |- _ ∧ _ => split end; try reflexivity;
     [kept_by_computation | intros [(-> & -> & -> & ->) _]; reflexivity]).
Qed.

Lemma toggle_play_twice_witness :
  is_playing (toggle_play playing_last) = negb (is_playing playing_last)
  ∧ calls (mixer (toggle_play playing_last))
    = (calls (mixer playing_last)
       ++ [if is_playing playing_last then Pause else Unpause])%list
  ∧ is_playing (toggle_play (toggle_play playing_last)) = is_playing playing_last
  ∧ calls (mixer (toggle_play (toggle_play playing_last)))
    = (calls (mixer playing_last)
       ++ (if is_playing playing_last then [Pause; Unpause] else [Unpause; Pause]))%list
  ∧ kept playing_last (toggle_play (toggle_play playing_last))
  ∧ (controls_agree playing_last
     → ui (toggle_play (toggle_play playing_last)) = ui playing_last).
Proof. apply (toggle_play_twice playing_last). Defined.

(** X16: [save_playlist] raises exactly when the playlist has tracks, a
    path was chosen and that path cannot be opened for writing, and then
    with the error of [open]; an empty playlist is answered by the "No
    tracks to save" warning, and a cancelled dialog by nothing at all. *)
Theorem save_playlist_raises (file_path : string) (s : Player) :
  (∀ e, save_playlist file_path s = inl e
        ↔ playlist s ≠ [] ∧ file_path ≠ "" ∧ file_path ∈ read_only (disk s)
          ∧ e = PermissionError file_path)
  ∧ (playlist s = [] → save_playlist file_path s = inr (message_box NoPlaylist s))
  ∧ (playlist s ≠ [] → file_path = "" → save_playlist file_path s = inr s).
Proof.
  unfold save_playlist, json_dump.
  destruct (playlist s) as [| t l] eqn:Hl.
  - split; [| split; [reflexivity | congruence]].
    intros e. split; [discriminate | intros [H _]; congruence].
  - destruct (String.eqb_spec file_path "") as [Hempty | Hpath].
    + split; [| split; [discriminate | reflexivity]].
      intros e. split; [discriminate | intros (_ & H & _); contradiction].
    + split; [| split; [discriminate | intros _ H; contradiction]].
      intros e. destruct (decide (file_path ∈ read_only (disk s))) as [Hro | Hrw].
      * split.
        -- intros [= <-]. repeat split; [discriminate | exact Hpath | exact Hro].
        -- intros (_ & _ & _ & ->). reflexivity.
      * split; [discriminate | intros (_ & _ & H & _); contradiction].
Qed.

Lemma save_playlist_raises_witness :
  (∀ e, save_playlist "/m/locked.json" good_and_broken = inl e
        ↔ playlist good_and_broken ≠ [] ∧ "/m/locked.json" ≠ ""
          ∧ "/m/locked.json" ∈ read_only (disk good_and_broken)
          ∧ e = PermissionError "/m/locked.json")
  ∧ (playlist good_and_broken = [] →
     save_playlist "/m/locked.json" good_and_broken
     = inr (message_box NoPlaylist good_and_broken))
  ∧ (playlist good_and_broken ≠ [] → "/m/locked.json" = "" →
     save_playlist "/m/locked.json" good_and_broken = inr good_and_broken).
Proof. apply (save_playlist_raises "/m/locked.json" good_and_broken). Defined.

(** *** Extensions *)

Lemma length_drop (n : nat) (s : string) :
  String.length (Py.drop n s) = (String.length s - n)%nat.
Proof.
  revert s. induction n as [| n IH]; intros s; simpl; [lia |].
  destruct s as [| a s]; simpl; [reflexivity | apply IH].
Qed.

Lemma drop_past_end (n : nat) (s : string) :
  (String.length s <= n)%nat → Py.drop n s = "".
Proof.
  revert s. induction n as [| n IH]; intros s Hn.
  - destruct s; [reflexivity | simpl in Hn; lia].
  - destruct s as [| a s]; [reflexivity |]. simpl in *. apply IH. lia.
Qed.

Lemma lower_drop (n : nat) (s : string) : Py.lower (Py.drop n s) = Py.drop n (Py.lower s).
Proof.
  revert s. induction n as [| n IH]; intros s; [reflexivity |].
  destruct s as [| a s]; [reflexivity | simpl; apply IH].
Qed.

Lemma take_drop (n : nat) (s : string) : Py.take n s +:+ Py.drop n s = s.
Proof.
  revert s. induction n as [| n IH]; intros s; [reflexivity |].
  destruct s as [| a s]; [reflexivity |].
  change (String a (Py.take n s +:+ Py.drop n s) = String a s).
  f_equal. apply IH.
Qed.

Lemma endswith_drop (n : nat) (s : string) : Py.endswith s (Py.drop n s) = true.
Proof.
  unfold Py.endswith. rewrite length_drop.
  apply andb_true_iff. split; [apply Nat.leb_le; lia |].
  apply String.eqb_eq.
  destruct (Nat.le_gt_cases n (String.length s)) as [Hle | Hgt].
  - f_equal. lia.
  - rewrite (drop_past_end n s) by lia.
    apply drop_past_end. lia.
Qed.

Lemma splitext_loop_parts (p : string) (dotIndex filenameIndex : Z) (todo : nat) :
  Py.splitext_loop p dotIndex filenameIndex todo = (p, "")
  ∨ Py.splitext_loop p dotIndex filenameIndex todo
    = (Py.take (Z.to_nat dotIndex) p, Py.drop (Z.to_nat dotIndex) p).
Proof.
  revert filenameIndex. induction todo as [| todo IH]; intros filenameIndex; simpl.
  - left. reflexivity.
  - destruct (negb _); [right; reflexivity | apply IH].
Qed.

Lemma splitext_parts (p : string) :
  Py.splitext p = (p, "")
  ∨ ∃ n, Py.splitext p = (Py.take n p, Py.drop n p).
Proof.
  unfold Py.splitext. destruct (_ <? _); [| left; reflexivity].
  destruct (splitext_loop_parts p (Py.rfind "." p) (Py.rfind "/" p + 1)
              (Z.to_nat (Py.rfind "." p - (Py.rfind "/" p + 1)))) as [-> | ->]; eauto.
Qed.

(** X17: [os.path.splitext] cuts a path in two parts that give it back
    when joined, and a path [add_tracks] and [dropEvent] accept ends, once
    lower-cased, with the extension it was accepted for, one of the nine of
    [SUPPORTED_FORMATS]; a path without extension is never accepted. *)
Theorem accepted_path_ends_with_extension (path : string) :
  fst (Py.splitext path) +:+ snd (Py.splitext path) = path
  ∧ (supported (file_ext path) = true →
     file_ext path ∈ SUPPORTED_FORMATS
     ∧ Py.endswith (Py.lower path) (file_ext path) = true
     ∧ snd (Py.splitext path) ≠ "").
Proof.
  unfold file_ext.
  destruct (splitext_parts path) as [-> | [n ->]]; simpl.
  - split; [clear; induction path as [| a p IH]; [reflexivity |];
            change (String a (p +:+ "") = String a p); f_equal; exact IH |].
    intros H. vm_compute in H. discriminate.
  - split; [apply take_drop |].
    intros Hsup. split; [exact (bool_decide_eq_true_1 _ Hsup) |].
    split; [rewrite lower_drop; apply endswith_drop |].
    intros Hnil. rewrite Hnil in Hsup. vm_compute in Hsup. discriminate.
Qed.

Lemma accepted_path_ends_with_extension_witness :
  fst (Py.splitext "/music/My.Song.MP3") +:+ snd (Py.splitext "/music/My.Song.MP3")
  = "/music/My.Song.MP3"
  ∧ (supported (file_ext "/music/My.Song.MP3") = true →
     file_ext "/music/My.Song.MP3" ∈ SUPPORTED_FORMATS
     ∧ Py.endswith (Py.lower "/music/My.Song.MP3") (file_ext "/music/My.Song.MP3") = true
     ∧ snd (Py.splitext "/music/My.Song.MP3") ≠ "").
Proof. apply (accepted_path_ends_with_extension "/music/My.Song.MP3"). Defined.

(** *** Themes *)

(** X18: [change_theme] with the name "90s_crt" sets the CRT style sheet
    and with any other name, known or not, the style sheet of the neon
    theme: an unknown theme name is not an error. *)
Theorem change_theme_falls_back (theme : string) :
  change_theme "90s_crt" = style_sheet crt_90s
  ∧ (theme ≠ "90s_crt" → change_theme theme = style_sheet neon_80s)
  ∧ style_sheet crt_90s ≠ style_sheet neon_80s.
Proof.
  split; [reflexivity |]. split.
  - intros Hne. unfold change_theme, setup_style, themes.
    destruct (decide (theme = "80s_neon")) as [-> | Hne'].
    + reflexivity.
    + rewrite lookup_insert_ne by congruence.
      rewrite lookup_insert_ne by congruence.
      rewrite lookup_empty. reflexivity.
  - vm_compute. discriminate.
Qed.

Lemma change_theme_falls_back_witness :
  change_theme "90s_crt" = style_sheet crt_90s
  ∧ ("disco" ≠ "90s_crt" → change_theme "disco" = style_sheet neon_80s)
  ∧ style_sheet crt_90s ≠ style_sheet neon_80s.
Proof. apply (change_theme_falls_back "disco"). Defined.

(** *** The visualizer *)

(** X19: while the player is flagged playing, [update_visualizer] draws
    eight bars of at least one block each, whatever the generator returns,
    and of at most ten blocks when the eight values it returns are at most 10; while it is
    not, the label is reset to the empty frame. *)
Theorem visualizer_bars_bounds (uniform : nat → Q) (s : Player) :
  length (visualizer_bars uniform) = 8%nat
  ∧ (∀ b, b ∈ visualizer_bars uniform → 1 <= b)
  ∧ ((∀ i, (i < 8)%nat → (uniform i <= 10)%Q) →
     ∀ b, b ∈ visualizer_bars uniform → b <= 10)
  ∧ (is_playing s = false → update_visualizer uniform s = "Visualizer: [   ]")
  ∧ (is_playing s = true →
     update_visualizer uniform s
     = "Visualizer: "
       +:+ String.concat " " (map (repeat_string "█") (visualizer_bars uniform))).
Proof.
  split; [reflexivity |]. split; [| split; [| split]].
  - intros b Hb. unfold visualizer_bars in Hb.
    apply list_elem_of_fmap in Hb. destruct Hb as (i & -> & _). lia.
  - intros Hmax b Hb. unfold visualizer_bars in Hb.
    apply list_elem_of_fmap in Hb. destruct Hb as (i & -> & Hi).
    apply elem_of_seq in Hi. specialize (Hmax i ltac:(lia)). unfold Py.int.
    destruct (uniform i) as [num den]. unfold Qle in Hmax. simpl in *.
    assert (Hq : num ÷ Z.pos den <= 10).
    { destruct (Z.le_gt_cases 0 num) as [Hpos | Hneg].
      - rewrite Z.quot_div_nonneg by lia.
        apply Z.div_le_upper_bound; lia.
      - pose proof (Z.quot_opp_l num (Z.pos den)) as Hopp.
        assert (0 <= (- num) ÷ Z.pos den) by (apply Z.quot_pos; lia).
        rewrite Hopp in H by lia. lia. }
    lia.
  - intros Hp. unfold update_visualizer. rewrite Hp. reflexivity.
  - intros Hp. unfold update_visualizer. rewrite Hp. reflexivity.
Qed.

Lemma visualizer_bars_bounds_witness :
  length (visualizer_bars sample_uniform) = 8%nat
  ∧ (∀ b, b ∈ visualizer_bars sample_uniform → 1 <= b)
  ∧ ((∀ i, (i < 8)%nat → (sample_uniform i <= 10)%Q) →
     ∀ b, b ∈ visualizer_bars sample_uniform → b <= 10)
  ∧ (is_playing playing_last = false →
     update_visualizer sample_uniform playing_last
     = "Visualizer: [   ]")
  ∧ (is_playing playing_last = true →
     update_visualizer sample_uniform playing_last
     = "Visualizer: "
       +:+ String.concat " "
             (map (repeat_string "█")
                (visualizer_bars sample_uniform))).
Proof.
  apply (visualizer_bars_bounds sample_uniform playing_last).
Defined.

Lemma no_index_error_witness :
  0 <= current_track_index two_tracks
  ∧ rows_within two_tracks
  ∧ ∀ a, deliverable a two_tracks → run a two_tracks ≠ inl IndexError.
Proof.
  apply (no_index_error sample_disk two_tracks).
  apply (reachable_step any_action sample_disk (init sample_disk)
           (AddTracks ["/m/a.mp3"; "/m/b.flac"]) two_tracks).
  - apply reachable_init.
  - exact I.
  - exact I.
  - reflexivity.
Defined.

(** *** Track names *)

Lemma rfind_from_shift (c : ascii) (s : string) (i last : Z) :
  -1 <= Py.rfind c s
  ∧ Py.rfind_from c s i last
    = (if Py.rfind c s =? -1 then last else i + Py.rfind c s).
Proof.
  unfold Py.rfind. revert i last.
  induction s as [| a s IH]; intros i last; simpl.
  - split; [lia | reflexivity].
  - change (0 + 1) with 1.
    destruct (IH 1 (if Ascii.eqb a c then 0 else -1)) as [Hge H1].
    destruct (IH (i + 1) (if Ascii.eqb a c then i else last)) as [_ Hi].
    rewrite H1, Hi.
    destruct (Z.eqb_spec (Py.rfind_from c s 0 (-1)) (-1)) as [Hnone | Hsome].
    + destruct (Ascii.eqb a c); simpl; split; try lia; f_equal; lia.
    + destruct (Z.eqb_spec (1 + Py.rfind_from c s 0 (-1)) (-1)); [lia |].
      split; lia.
Qed.

Lemma rfind_cons (c a : ascii) (s : string) :
  Py.rfind c (String a s)
  = (if Py.rfind c s =? -1 then (if Ascii.eqb a c then 0 else -1) else 1 + Py.rfind c s).
Proof.
  unfold Py.rfind at 1. simpl.
  exact (proj2 (rfind_from_shift c s 1 (if Ascii.eqb a c then 0 else -1))).
Qed.

Lemma rfind_after_last (c : ascii) (s : string) :
  Py.rfind c (Py.drop (Z.to_nat (Py.rfind c s + 1)) s) = -1.
Proof.
  induction s as [| a s IH]; [reflexivity |].
  pose proof (proj1 (rfind_from_shift c s 0 0)) as Hge.
  rewrite (rfind_cons c a s).
  destruct (Z.eqb_spec (Py.rfind c s) (-1)) as [Hnone | Hsome].
  - destruct (Ascii.eqb a c) eqn:Ha.
    + simpl. exact Hnone.
    + simpl. rewrite (rfind_cons c a s), Hnone, Ha. reflexivity.
  - replace (Z.to_nat (1 + Py.rfind c s + 1)) with (S (Z.to_nat (Py.rfind c s + 1))) by lia.
    simpl. exact IH.
Qed.

(** X20: the name [get_track_metadata] returns is the title tag, and then
    the file has one of the extensions .mp3, .flac, .ogg and its tag reader
    returned that title, or else the base name of the path, which holds no
    slash; it logs one metadata error, and only when the tag reader raised;
    it raises nothing itself. *)
Theorem get_track_metadata_name (file : string) (s : Player) :
  (fst (get_track_metadata file s) = Py.basename file
   ∨ ∃ title, fst (get_track_metadata file s) = title
              ∧ read_tags (disk s) file = inr (Some title)
              ∧ file_ext file ∈ [".mp3"; ".flac"; ".ogg"])
  ∧ (snd (get_track_metadata file s) = s
     ∨ ∃ e, read_tags (disk s) file = inl e
            ∧ snd (get_track_metadata file s) = logging_error (MetadataErrorLog file e) s)
  ∧ Py.rfind "/" (Py.basename file) = -1.
Proof.
  split; [| split; [| apply rfind_after_last]];
    unfold get_track_metadata, EasyID3, FLAC, OggVorbis.
  - destruct (String.eqb_spec (file_ext file) ".mp3") as [-> | _];
      [| destruct (String.eqb_spec (file_ext file) ".flac") as [-> | _];
         [| destruct (String.eqb_spec (file_ext file) ".ogg") as [-> | _]]];
      try (left; reflexivity);
      (destruct (read_tags (disk s) file) as [e | [t |]]; simpl;
       [left; reflexivity
       | right; exists t; repeat split; set_solver
       | left; reflexivity]).
  - repeat (case (String.eqb _ _);
            [destruct (read_tags (disk s) file) as [e | [t |]]; simpl; eauto |]).
    left. reflexivity.
Qed.

Lemma play_selected_track_raises_witness :
  (play_selected_track 2 two_tracks = inl IndexError
   ↔ playlist two_tracks ≠ [] ∧ (2 < - playlist_len two_tracks ∨ playlist_len two_tracks <= 2))
  ∧ (∀ e, play_selected_track 2 two_tracks = inl e → e = IndexError).
Proof. apply (play_selected_track_raises 2 two_tracks). Defined.

(** *** A single track, after its end *)

Lemma next_track_single (rnd : Z) (s : Player) (track : string) :
  playlist s = [track] →
  next_track rnd s
  = (if negb (is_repeated s) && (music_pos (mixer s) =? -1)
     then inr (toggle_play (set_current_track_index 0 s))
     else play_track (set_current_track_index 0 s)).
Proof.
  intros Hpl.
  assert (Hlen : playlist_len s = 1) by (unfold playlist_len; rewrite Hpl; reflexivity).
  assert (Hi : (if is_shuffled s
                then set_current_track_index (Py.randint 0 (playlist_len s - 1) rnd) s
                else set_current_track_index
                       ((current_track_index s + 1) mod playlist_len s) s)
               = set_current_track_index 0 s).
  { rewrite Hlen. destruct (is_shuffled s); f_equal.
    - unfold Py.randint. simpl. apply Z.mod_1_r.
    - apply Z.mod_1_r. }
  unfold next_track. rewrite Hpl, Hi. simpl.
  rewrite andb_true_r. reflexivity.
Qed.

(** X22: a single track that has played to its end, the player still
    flagged playing, repeat off: the first [next_track] only pauses, the
    second only unpauses, which arms the position clock again, and the third
    plays the track (fade-out, load, play), provided the mixer loads it. *)
Theorem next_track_thrice_single (r1 r2 r3 : Z) (s : Player) (track : string) :
  playlist s = [track] → is_repeated s = false → music_pos (mixer s) = -1 →
  is_playing s = true → Play ∈ calls (mixer s) →
  mixer_load_error (disk s) track = None →
  ∃ s1 s2 s3,
    next_track r1 s = inr s1 ∧ next_track r2 s1 = inr s2 ∧ next_track r3 s2 = inr s3
    ∧ is_playing s1 = false ∧ is_playing s2 = true ∧ is_playing s3 = true
    ∧ calls (mixer s1) = (calls (mixer s) ++ [Pause])%list
    ∧ calls (mixer s2) = (calls (mixer s) ++ [Pause; Unpause])%list
    ∧ calls (mixer s3)
      = (calls (mixer s)
         ++ [Pause; Unpause; Fadeout (Py.int (crossfade_duration s * 1000)%Q);
             Load track; Play])%list.
Proof.
  intros Hpl Hrep Hpos Hplay _ Hload.
  set (s1 := toggle_play (set_current_track_index 0 s)).
  set (s2 := toggle_play (set_current_track_index 0 s1)).
  assert (H1 : playlist s1 = [track] ∧ is_repeated s1 = false
               ∧ music_pos (mixer s1) = -1 ∧ is_playing s1 = false
               ∧ calls (mixer s1) = (calls (mixer s) ++ [Pause])%list
               ∧ disk s1 = disk s ∧ crossfade_duration s1 = crossfade_duration s).
  { subst s1. unfold toggle_play. simpl. rewrite Hplay. simpl. tauto. }
  destruct H1 as (Hpl1 & Hrep1 & Hpos1 & Hplay1 & Hcalls1 & Hdisk1 & Hx1).
  assert (H2 : playlist s2 = [track] ∧ is_repeated s2 = false
               ∧ music_pos (mixer s2) = 0 ∧ is_playing s2 = true
               ∧ calls (mixer s2) = (calls (mixer s) ++ [Pause; Unpause])%list
               ∧ disk s2 = disk s ∧ crossfade_duration s2 = crossfade_duration s
               ∧ current_track_index s2 = 0).
  { subst s2. unfold toggle_play. simpl. rewrite Hplay1. simpl.
    rewrite Hpos1, Hcalls1, <- app_assoc. simpl. tauto. }
  destruct H2 as (Hpl2 & Hrep2 & Hpos2 & Hplay2 & Hcalls2 & Hdisk2 & Hx2 & Hidx2).
  destruct (play_track_plays (set_current_track_index 0 s2) track) as (s3 & Hrun & Hp3 & Hc3 & _).
  { unfold current_track. simpl. rewrite Hpl2. reflexivity. }
  { simpl. rewrite Hdisk2. exact Hload. }
  exists s1, s2, s3.
  split; [rewrite (next_track_single r1 s track Hpl), Hrep, Hpos; reflexivity |].
  split; [rewrite (next_track_single r2 s1 track Hpl1), Hrep1, Hpos1; reflexivity |].
  split; [rewrite (next_track_single r3 s2 track Hpl2), Hrep2, Hpos2; exact Hrun |].
  split; [exact Hplay1 |]. split; [exact Hplay2 |]. split; [exact Hp3 |].
  split; [exact Hcalls1 |]. split; [exact Hcalls2 |].
  rewrite Hc3. unfold fadeout_calls. simpl. rewrite Hplay2, Hcalls2, Hx2, <- app_assoc.
  reflexivity.
Qed.

Lemma next_track_thrice_single_witness :
  ∃ s1 s2 s3,
    next_track 0 single_ended = inr s1 ∧ next_track 0 s1 = inr s2
    ∧ next_track 0 s2 = inr s3
    ∧ is_playing s1 = false ∧ is_playing s2 = true ∧ is_playing s3 = true
    ∧ calls (mixer s1) = (calls (mixer single_ended) ++ [Pause])%list
    ∧ calls (mixer s2) = (calls (mixer single_ended) ++ [Pause; Unpause])%list
    ∧ calls (mixer s3)
      = (calls (mixer single_ended)
         ++ [Pause; Unpause; Fadeout (Py.int (crossfade_duration single_ended * 1000)%Q);
             Load "/m/a.mp3"; Play])%list.
Proof.
  apply (next_track_thrice_single 0 0 0 single_ended "/m/a.mp3").
  - vm_compute. reflexivity.
  - reflexivity.
  - reflexivity.
  - reflexivity.
  - vm_compute. apply elem_of_cons. right. apply elem_of_cons. left. reflexivity.
  - vm_compute. reflexivity.
Defined.
